(** * A file-backed secret store (app.js): model and properties

  The program keeps one JavaScript object, [store], reads and writes one
  file, [STORE_FILE], and talks to the user through a question/answer
  loop.  This development embeds the functions of [app.js]
  ([isEncrypted], [decryptStore], [encryptStore], [isValidKey], [main])
  together with the part of the JavaScript run time they rely on
  (strings of UTF-16 code units, buffers of bytes, UTF-8 transcoding,
  [JSON.stringify] / [JSON.parse] and property access on an ordinary
  object), and proves the properties the specification states. *)

From Stdlib Require Import NArith ZArith Lia List Bool.
From Stdlib.Strings Require Import Ascii String Byte.
From stdpp Require Import gmap list fin_maps.

Local Open Scope N_scope.

(** ** JavaScript strings

  A JavaScript string is a sequence of UTF-16 code units. *)

Module JsString.

Abbreviation t := (list N).

(** A string literal of the source, all of whose characters are ASCII. *)
Fixpoint lit (s : String.string) : t :=
  match s with
  | EmptyString => []
  | String a r => N_of_ascii a :: lit r
  end.

Definition wf (s : t) : Prop := Forall (fun c => c < 65536) s.

(** [!s] for a string [s]: only the empty string is falsy. *)
Definition is_empty (s : t) : bool :=
  match s with [] => true | _ :: _ => false end.

(** [s.startsWith(p)] *)
Fixpoint startsWith (s p : t) {struct p} : bool :=
  match p, s with
  | [], _ => true
  | _ :: _, [] => false
  | a :: p', b :: s' => (a =? b) && startsWith s' p'
  end.

(** [s.endsWith(p)] *)
Definition endsWith (s p : t) : bool := startsWith (rev s) (rev p).

(** [s.includes(p)] *)
Fixpoint includes (s p : t) : bool :=
  startsWith s p ||
  match s with
  | [] => false
  | _ :: s' => includes s' p
  end.

(** The code units [String.prototype.trim] removes: WhiteSpace and
    LineTerminator of ECMA-262. *)
Definition is_trimmable (c : N) : bool :=
  ((9 <=? c) && (c <=? 13)) || (c =? 32) || (c =? 160) || (c =? 5760)
  || ((8192 <=? c) && (c <=? 8202)) || (c =? 8232) || (c =? 8233)
  || (c =? 8239) || (c =? 8287) || (c =? 12288) || (c =? 65279).

Fixpoint trimStart (s : t) : t :=
  match s with
  | c :: s' => if is_trimmable c then trimStart s' else s
  | [] => []
  end.

(** [s.trim()] *)
Definition trim (s : t) : t := rev (trimStart (rev (trimStart s))).

Definition eqb (a b : t) : bool := bool_decide (a = b).

End JsString.

Abbreviation jsstring := JsString.t.
Abbreviation js := JsString.lit.

(** ** Key validation: [isValidKey] (app.js, line 103) *)

Module KeyValidator.

(** A character class of a regular expression: ranges and single
    characters. *)
Inductive class_item : Type :=
| Range (lo hi : N)
| Char (c : N).

Definition item_matches (c : N) (i : class_item) : bool :=
  match i with
  | Range lo hi => (lo <=? c) && (c <=? hi)
  | Char d => c =? d
  end.

(** The class [[a-zA-Z0-9 _-]]. *)
Definition key_class : list class_item :=
  [Range 97 122; Range 65 90; Range 48 57; Char 32; Char 95; Char 45].

Definition in_class (c : N) : bool := existsb (item_matches c) key_class.

(** [/^[a-zA-Z0-9 _-]+$/.test(key)]: one or more characters of the
    class, from the start of the string to its end. *)
Definition regex_test (key : jsstring) : bool :=
  match key with
  | [] => false
  | c :: rest => in_class c && forallb in_class rest
  end.

Definition isValidKey (key : jsstring) : bool :=
  regex_test key
  && negb (JsString.startsWith key (js " "))
  && negb (JsString.endsWith key (js " ")).

(** The rule as the specification words it. *)
Definition is_letter (c : N) : Prop := 97 <= c <= 122 \/ 65 <= c <= 90.
Definition is_digit (c : N) : Prop := 48 <= c <= 57.
Definition allowed (c : N) : Prop :=
  is_letter c \/ is_digit c \/ c = 32 \/ c = 95 \/ c = 45.

Definition spec_valid (key : jsstring) : Prop :=
  key <> []
  /\ Forall allowed key
  /\ head key <> Some 32
  /\ last key <> Some 32.

End KeyValidator.

(** ** Buffers and UTF-8

    A [Buffer] is a sequence of bytes.  [buf.toString()] and
    [fs.readFileSync(path, 'utf8')] decode it as UTF-8, replacing every
    maximal ill-formed subsequence by U+FFFD and keeping a leading byte
    order mark; [Buffer.from(string)] encodes a string as UTF-8, a
    surrogate that is not part of a pair becoming U+FFFD. *)

Module Utf8.

Abbreviation buffer := (list byte).

Definition byte_of_N (n : N) : byte :=
  match Byte.of_N (n mod 256) with
  | Some b => b
  | None => x00
  end.

Definition between (lo hi x : N) : bool := (lo <=? x) && (x <=? hi).

Definition is_continuation (x : N) : bool := between 128 191 x.

(** The second byte allowed after the lead byte [x0] of a three-byte
    sequence: no overlong forms, no surrogates. *)
Definition second_of_three (x0 x1 : N) : bool :=
  if x0 =? 224 then between 160 191 x1
  else if x0 =? 237 then between 128 159 x1
  else is_continuation x1.

(** The second byte allowed after the lead byte [x0] of a four-byte
    sequence: no overlong forms, nothing above U+10FFFF. *)
Definition second_of_four (x0 x1 : N) : bool :=
  if x0 =? 240 then between 144 191 x1
  else if x0 =? 244 then between 128 143 x1
  else is_continuation x1.

Definition replacement : N := 65533.

(** The two UTF-16 code units of a code point above U+FFFF. *)
Definition surrogates (cp : N) : list N :=
  [55296 + (cp - 65536) / 1024; 56320 + (cp - 65536) mod 1024].

Fixpoint decode (bs : buffer) : jsstring :=
  match bs with
  | [] => []
  | b0 :: r0 =>
    let x0 := Byte.to_N b0 in
    if x0 <? 128 then x0 :: decode r0
    else if between 194 223 x0 then
      match r0 with
      | [] => [replacement]
      | b1 :: r1 =>
        let x1 := Byte.to_N b1 in
        if is_continuation x1
        then ((x0 - 192) * 64 + (x1 - 128)) :: decode r1
        else replacement :: decode r0
      end
    else if between 224 239 x0 then
      match r0 with
      | [] => [replacement]
      | b1 :: r1 =>
        let x1 := Byte.to_N b1 in
        if second_of_three x0 x1 then
          match r1 with
          | [] => [replacement]
          | b2 :: r2 =>
            let x2 := Byte.to_N b2 in
            if is_continuation x2
            then ((x0 - 224) * 4096 + (x1 - 128) * 64 + (x2 - 128))
                   :: decode r2
            else replacement :: decode r1
          end
        else replacement :: decode r0
      end
    else if between 240 244 x0 then
      match r0 with
      | [] => [replacement]
      | b1 :: r1 =>
        let x1 := Byte.to_N b1 in
        if second_of_four x0 x1 then
          match r1 with
          | [] => [replacement]
          | b2 :: r2 =>
            let x2 := Byte.to_N b2 in
            if is_continuation x2 then
              match r2 with
              | [] => [replacement]
              | b3 :: r3 =>
                let x3 := Byte.to_N b3 in
                if is_continuation x3
                then surrogates ((x0 - 240) * 262144 + (x1 - 128) * 4096
                                 + (x2 - 128) * 64 + (x3 - 128))
                       ++ decode r3
                else replacement :: decode r2
              end
            else replacement :: decode r1
          end
        else replacement :: decode r0
      end
    else replacement :: decode r0
  end.

Definition is_high_surrogate (c : N) : bool := between 55296 56319 c.
Definition is_low_surrogate (c : N) : bool := between 56320 57343 c.

Definition encode_code_point (cp : N) : buffer :=
  if cp <? 128 then [byte_of_N cp]
  else if cp <? 2048 then
    [byte_of_N (192 + cp / 64); byte_of_N (128 + cp mod 64)]
  else if cp <? 65536 then
    [byte_of_N (224 + cp / 4096); byte_of_N (128 + (cp / 64) mod 64);
     byte_of_N (128 + cp mod 64)]
  else
    [byte_of_N (240 + cp / 262144); byte_of_N (128 + (cp / 4096) mod 64);
     byte_of_N (128 + (cp / 64) mod 64); byte_of_N (128 + cp mod 64)].

Fixpoint encode (s : jsstring) : buffer :=
  match s with
  | [] => []
  | c :: r =>
    if is_high_surrogate c then
      match r with
      | d :: r' =>
        if is_low_surrogate d
        then encode_code_point (65536 + (c - 55296) * 1024 + (d - 56320))
               ++ encode r'
        else encode_code_point replacement ++ encode r
      | [] => encode_code_point replacement
      end
    else if is_low_surrogate c then encode_code_point replacement ++ encode r
    else encode_code_point c ++ encode r
  end.

End Utf8.

Abbreviation buffer := Utf8.buffer.

(** ** The store object

    [let store = {}] is an ordinary object whose prototype is
    [Object.prototype].  Its own properties are the entries of the store;
    the data model has string values only, so the own properties are a
    finite map from strings to strings.  The order in which the engine
    enumerates them is not modelled. *)

Module JsObject.

Abbreviation t := (gmap jsstring jsstring).

(** What [store[key]] can evaluate to. *)
Inductive value : Type :=
| Undefined
| Str (s : jsstring)
| Builtin.  (* a function or object found on [Object.prototype] *)

(** The properties every ordinary object inherits from
    [Object.prototype]. *)
Definition prototype_keys : list jsstring :=
  [js "constructor"; js "hasOwnProperty"; js "isPrototypeOf";
   js "propertyIsEnumerable"; js "toLocaleString"; js "toString";
   js "valueOf"; js "__proto__"; js "__defineGetter__";
   js "__defineSetter__"; js "__lookupGetter__"; js "__lookupSetter__"].

Definition inherited (key : jsstring) : bool :=
  bool_decide (key ∈ prototype_keys).

(** [store[key]]: the own property if there is one, else what the
    prototype chain gives. *)
Definition get (store : t) (key : jsstring) : value :=
  match store !! key with
  | Some v => Str v
  | None => if inherited key then Builtin else Undefined
  end.

(** ToBoolean *)
Definition truthy (v : value) : bool :=
  match v with
  | Undefined => false
  | Str s => negb (JsString.is_empty s)
  | Builtin => true
  end.

(** [store[key] = value] for a string [value].  An own property is
    overwritten; otherwise a property is created, except for
    ["__proto__"], whose inherited setter ignores a value that is neither
    an object nor null. *)
Definition set (store : t) (key value : jsstring) : t :=
  match store !! key with
  | Some _ => <[key := value]> store
  | None =>
    if bool_decide (key = js "__proto__") then store
    else <[key := value]> store
  end.

(** [delete store[key]]: removes an own property, does nothing else. *)
Definition remove (store : t) (key : jsstring) : t := delete key store.

End JsObject.

Abbreviation Store := JsObject.t.

(** ** JSON *)

Module Json.

Definition hex_digit (n : N) : N := if n <? 10 then 48 + n else 87 + n.

(** [\uXXXX], in lower-case hexadecimal. *)
Definition unicode_escape (c : N) : jsstring :=
  [92; 117; hex_digit (c / 4096); hex_digit ((c / 256) mod 16);
   hex_digit ((c / 16) mod 16); hex_digit (c mod 16)].

(** A code unit that is not a surrogate, inside a JSON string. *)
Definition quote_unit (c : N) : jsstring :=
  if c =? 8 then js "\b"
  else if c =? 9 then js "\t"
  else if c =? 10 then js "\n"
  else if c =? 12 then js "\f"
  else if c =? 13 then js "\r"
  else if c =? 34 then [92; 34]
  else if c =? 92 then [92; 92]
  else if c <? 32 then unicode_escape c
  else [c].

Fixpoint quote_body (s : jsstring) : jsstring :=
  match s with
  | [] => []
  | c :: r =>
    if Utf8.is_high_surrogate c then
      match r with
      | d :: r' =>
        if Utf8.is_low_surrogate d then c :: d :: quote_body r'
        else unicode_escape c ++ quote_body r
      | [] => unicode_escape c
      end
    else if Utf8.is_low_surrogate c then unicode_escape c ++ quote_body r
    else quote_unit c ++ quote_body r
  end.

(** QuoteJSONString *)
Definition quote (s : jsstring) : jsstring := 34 :: quote_body s ++ [34].

Definition member (kv : jsstring * jsstring) : jsstring :=
  quote kv.1 ++ 58 :: quote kv.2.

Fixpoint join (sep : jsstring) (l : list jsstring) : jsstring :=
  match l with
  | [] => []
  | [x] => x
  | x :: r => x ++ sep ++ join sep r
  end.

(** [JSON.stringify(store)] *)
Definition stringify (store : Store) : jsstring :=
  123 :: join [44] (member <$> map_to_list store) ++ [125].

Definition member_indented (kv : jsstring * jsstring) : jsstring :=
  js "  " ++ quote kv.1 ++ js ": " ++ quote kv.2.

(** [JSON.stringify(store, null, 2)] *)
Definition stringify_indented (store : Store) : jsstring :=
  match map_to_list store with
  | [] => js "{}"
  | l => 123 :: 10 :: join [44; 10] (member_indented <$> l) ++ [10; 125]
  end.

(** *** [JSON.parse] *)

#[local] Unset Elimination Schemes.
Inductive json : Type :=
| JNull
| JBool (b : bool)
| JNumber
| JString (s : jsstring)
| JArray (l : list json)
| JObject (l : list (jsstring * json)).
#[local] Set Elimination Schemes.

Definition is_ws (c : N) : bool :=
  (c =? 9) || (c =? 10) || (c =? 13) || (c =? 32).

Fixpoint skip_ws (s : jsstring) : jsstring :=
  match s with
  | c :: r => if is_ws c then skip_ws r else s
  | [] => []
  end.

Definition hex_value (c : N) : option N :=
  if Utf8.between 48 57 c then Some (c - 48)
  else if Utf8.between 97 102 c then Some (c - 87)
  else if Utf8.between 65 70 c then Some (c - 55)
  else None.

Definition hex4 (a b c d : N) : option N :=
  match hex_value a, hex_value b, hex_value c, hex_value d with
  | Some x, Some y, Some z, Some w => Some (x * 4096 + y * 256 + z * 16 + w)
  | _, _, _, _ => None
  end.

(** The character a single-letter escape stands for. *)
Definition simple_escape (e : N) : option N :=
  if e =? 34 then Some 34        (* quotation mark *)
  else if e =? 92 then Some 92   (* reverse solidus *)
  else if e =? 47 then Some 47   (* solidus *)
  else if e =? 98 then Some 8    (* b: backspace *)
  else if e =? 102 then Some 12  (* f: form feed *)
  else if e =? 110 then Some 10  (* n: line feed *)
  else if e =? 114 then Some 13  (* r: carriage return *)
  else if e =? 116 then Some 9   (* t: tab *)
  else None.

(** A string, after its opening quote: the characters up to the closing
    quote, and what follows it. *)
Fixpoint string_body (s : jsstring) : option (jsstring * jsstring) :=
  match s with
  | [] => None
  | c :: r =>
    if c =? 34 then Some ([], r)
    else if c =? 92 then
      match r with
      | [] => None
      | e :: r1 =>
        if e =? 117 then
          match r1 with
          | h1 :: h2 :: h3 :: h4 :: r2 =>
            match hex4 h1 h2 h3 h4, string_body r2 with
            | Some u, Some (t, rest) => Some (u :: t, rest)
            | _, _ => None
            end
          | _ => None
          end
        else
          match simple_escape e, string_body r1 with
          | Some u, Some (t, rest) => Some (u :: t, rest)
          | _, _ => None
          end
      end
    else if c <? 32 then None
    else
      match string_body r with
      | Some (t, rest) => Some (c :: t, rest)
      | None => None
      end
  end.

Definition is_digit (c : N) : bool := Utf8.between 48 57 c.

Fixpoint skip_digits (s : jsstring) : jsstring :=
  match s with
  | c :: r => if is_digit c then skip_digits r else s
  | [] => []
  end.

Definition digits1 (s : jsstring) : option jsstring :=
  match s with
  | c :: r => if is_digit c then Some (skip_digits r) else None
  | [] => None
  end.

(** A number: an optional minus sign; a zero, or a non-zero digit and
    any digits; optionally a point and one or more digits; optionally an
    exponent mark, a sign and one or more digits.  Each part returns what
    follows it. *)
Definition skip_sign (s : jsstring) : jsstring :=
  match s with
  | c :: r => if c =? 45 then r else s
  | [] => s
  end.

Definition int_part (s : jsstring) : option jsstring :=
  match s with
  | c :: r =>
    if c =? 48 then Some r
    else if Utf8.between 49 57 c then Some (skip_digits r)
    else None
  | [] => None
  end.

Definition frac_part (s : jsstring) : option jsstring :=
  match s with
  | c :: r => if c =? 46 then digits1 r else Some s
  | [] => Some s
  end.

Definition exp_part (s : jsstring) : option jsstring :=
  match s with
  | c :: r =>
    if (c =? 101) || (c =? 69) then
      match r with
      | d :: r' => if (d =? 43) || (d =? 45) then digits1 r' else digits1 r
      | [] => None
      end
    else Some s
  | [] => Some s
  end.

Definition number (s : jsstring) : option jsstring :=
  after_int ← int_part (skip_sign s);
  after_frac ← frac_part after_int;
  exp_part after_frac.

Definition literal (word : jsstring) (v : json) (s : jsstring)
  : option (json * jsstring) :=
  if JsString.startsWith s word then Some (v, drop (length word) s)
  else None.

Fixpoint value (fuel : nat) (s : jsstring) : option (json * jsstring) :=
  match fuel with
  | O => None
  | S f =>
    match skip_ws s with
    | [] => None
    | c :: r =>
      if c =? 123 then
        match skip_ws r with
        | [] => None
        | d :: r' =>
          if d =? 125 then Some (JObject [], r')
          else
            match members f r with
            | Some (l, rest) => Some (JObject l, rest)
            | None => None
            end
        end
      else if c =? 91 then
        match skip_ws r with
        | [] => None
        | d :: r' =>
          if d =? 93 then Some (JArray [], r')
          else
            match elements f r with
            | Some (l, rest) => Some (JArray l, rest)
            | None => None
            end
        end
      else if c =? 34 then
        match string_body r with
        | Some (t, rest) => Some (JString t, rest)
        | None => None
        end
      else if c =? 116 then literal (js "true") (JBool true) (c :: r)
      else if c =? 102 then literal (js "false") (JBool false) (c :: r)
      else if c =? 110 then literal (js "null") JNull (c :: r)
      else
        match number (c :: r) with
        | Some rest => Some (JNumber, rest)
        | None => None
        end
    end
  end
with members (fuel : nat) (s : jsstring)
  : option (list (jsstring * json) * jsstring) :=
  match fuel with
  | O => None
  | S f =>
    match skip_ws s with
    | [] => None
    | c :: r =>
      if c =? 34 then
        match string_body r with
        | None => None
        | Some (k, r1) =>
          match skip_ws r1 with
          | [] => None
          | c2 :: r2 =>
            if c2 =? 58 then
              match value f r2 with
              | None => None
              | Some (v, r3) =>
                match skip_ws r3 with
                | [] => None
                | c4 :: r4 =>
                  if c4 =? 44 then
                    match members f r4 with
                    | Some (l, rest) => Some ((k, v) :: l, rest)
                    | None => None
                    end
                  else if c4 =? 125 then Some ([(k, v)], r4)
                  else None
                end
              end
            else None
          end
        end
      else None
    end
  end
with elements (fuel : nat) (s : jsstring)
  : option (list json * jsstring) :=
  match fuel with
  | O => None
  | S f =>
    match value f s with
    | None => None
    | Some (v, r) =>
      match skip_ws r with
      | [] => None
      | c :: r' =>
        if c =? 44 then
          match elements f r' with
          | Some (l, rest) => Some (v :: l, rest)
          | None => None
          end
        else if c =? 93 then Some ([v], r')
        else None
      end
    end
  end.

(** [JSON.parse(text)]: [None] stands for a thrown [SyntaxError].  The
    fuel bounds the depth of the recursion; twice the length of the text
    is never exhausted ([parse_fuel] below). *)
Definition parse (text : jsstring) : option json :=
  match value (2 * length text + 2) text with
  | Some (v, rest) =>
    match skip_ws rest with
    | [] => Some v
    | _ :: _ => None
    end
  | None => None
  end.

(** The parsed value as a store of the data model: an object all of whose
    values are strings.  Properties are created in the order of the text,
    so that the last of several equal keys wins. *)
Fixpoint string_members (l : list (jsstring * json))
  : option (list (jsstring * jsstring)) :=
  match l with
  | [] => Some []
  | (k, JString v) :: r =>
    match string_members r with
    | Some t => Some ((k, v) :: t)
    | None => None
    end
  | _ :: _ => None
  end.

Definition define_all (l : list (jsstring * jsstring)) : Store :=
  fold_left (fun o kv => <[kv.1 := kv.2]> o) l ∅.

Definition as_store (v : json) : option Store :=
  match v with
  | JObject l => define_all <$> string_members l
  | _ => None
  end.

End Json.

(** ** The environment: errors, the file system, the RSA primitive *)

(** A thrown exception, as far as the program inspects it:
    [error instanceof SyntaxError] and [error.message]. *)
Record Error : Type := {
  is_SyntaxError : bool;
  message : jsstring
}.

Definition OtherError (message : jsstring) : Error :=
  {| is_SyntaxError := false; message := message |}.

(** What [JSON.parse] throws; the text of its message, which depends on
    the place of the error, is never looked at. *)
Definition SyntaxError : Error :=
  {| is_SyntaxError := true; message := js "Unexpected token in JSON" |}.

Inductive Completion (A : Type) : Type :=
| Normal (a : A)
| Throw (e : Error).
Arguments Normal {A} a.
Arguments Throw {A} e.

#[export] Instance Completion_ret : MRet Completion := @Normal.
#[export] Instance Completion_bind : MBind Completion :=
  fun A B f c =>
    match c with
    | Normal a => f a
    | Throw e => Throw e
    end.

Module Fs.

(** The files that exist, by path, with their content. *)
Abbreviation t := (gmap jsstring buffer).

Definition enoent (path : jsstring) : Error :=
  OtherError (js "ENOENT: no such file or directory, open '"
              ++ path ++ js "'").

(** [fs.existsSync(path)] *)
Definition existsSync (files : t) (path : jsstring) : bool :=
  bool_decide (is_Some (files !! path)).

(** [fs.readFileSync(path)] *)
Definition readFileSync (files : t) (path : jsstring) : Completion buffer :=
  match files !! path with
  | Some data => Normal data
  | None => Throw (enoent path)
  end.

(** [fs.readFileSync(path, 'utf8')] *)
Definition readFileSync_utf8 (files : t) (path : jsstring)
  : Completion jsstring :=
  data ← readFileSync files path; mret (Utf8.decode data).

(** [fs.writeFileSync(path, data)] *)
Definition writeFileSync (files : t) (path : jsstring) (data : buffer) : t :=
  <[path := data]> files.

End Fs.

(** [crypto.publicEncrypt] and [crypto.privateDecrypt] with
    [RSA_PKCS1_OAEP_PADDING], each given the text of a key file.  Both
    either return a buffer or throw an [Error] carrying OpenSSL's message.
    Encryption draws a random seed. *)
Record Crypto : Type := {
  publicEncrypt : jsstring -> buffer -> buffer -> jsstring + buffer;
  privateDecrypt : jsstring -> buffer -> jsstring + buffer
}.

Definition lift_crypto (r : jsstring + buffer) : Completion buffer :=
  match r with
  | inl message => Throw (OtherError message)
  | inr data => Normal data
  end.

(** [JSON.parse] as a completion. *)
Definition JSON_parse (text : jsstring) : Completion Json.json :=
  match Json.parse text with
  | Some v => Normal v
  | None => Throw SyntaxError
  end.

(** ** What the program prints *)

Inductive Message : Type :=
| HelpText
| Menu
| InvalidStoreFile            (* Invalid store file. *)
| DecryptionFailed            (* Decryption failed. *)
| ErrorDetails (message : jsstring)   (* Error details: ... *)
| StoreSaved                  (* Store encrypted and saved. *)
| InvalidPublicKeyFile        (* Invalid public key file. *)
| EncryptionFailed            (* Encryption failed. *)
| StoreDecrypted              (* Store successfully decrypted. *)
| StoreNotEncrypted           (* Store is not encrypted. Proceeding ... *)
| InvalidKey                  (* Invalid key. Please enter a valid key. *)
| OverwriteWarning (key : jsstring)
    (* Warning: Key '...' already exists. Value was overwritten. *)
| AddedUpdated (key value : jsstring) (* Added/Updated key: value *)
| DeletedKey (key : jsstring)         (* Deleted key: ... *)
| KeyNotFound                 (* Key not found. *)
| CurrentStore (text : jsstring)      (* Current store: ... *)
| ExitingWithoutEncryption    (* Exiting without encryption *)
| InvalidOption.              (* Invalid option. Please choose ... *)

Inductive Output : Type :=
| Log (m : Message)      (* console.log *)
| Warn (m : Message).    (* console.error *)

(** ** The program *)

(** The state of a run: the global [store], the files on disk and what
    has been printed so far (oldest first). *)
Record Session : Type := {
  store : Store;
  files : Fs.t;
  console : list Output
}.

Definition print (out : list Output) (s : Session) : Session :=
  {| store := store s; files := files s; console := console s ++ out |}.

Definition with_store (o : Store) (s : Session) : Session :=
  {| store := o; files := files s; console := console s |}.

Definition with_files (f : Fs.t) (s : Session) : Session :=
  {| store := store s; files := f; console := console s |}.

(** The question the program is waiting on: one for each
    [await askQuestion(...)] of the source. *)
Inductive Pending : Type :=
| AskPrivateKey            (* Enter the path to your private key: *)
| AskChoice                (* Choose an option (1-5): *)
| AskKey                   (* Enter key: *)
| AskValue (key : jsstring)   (* Enter value: *)
| AskDelKey                (* Enter key to delete: *)
| AskPublicKey.            (* Enter the path to your public key: *)

Inductive Status : Type :=
| Awaiting (q : Pending)
| Exited (code : Z)        (* process.exit(code) *)
| Crashed (e : Error)      (* an exception nothing catches *)
| OutsideDataModel.        (* the file held JSON that is not an object
                              of strings; the run is not followed *)

(** A function that returns, or ends the process. *)
Inductive Outcome (A : Type) : Type :=
| Returned (a : A)
| ProcessExit (code : Z).
Arguments Returned {A} a.
Arguments ProcessExit {A} code.

Module App.
Section Program.

Context (crypto : Crypto).
(** [args[0]], when the program gets past the help text. *)
Context (STORE_FILE : jsstring).
(** The random seed OAEP draws when [encryptStore] encrypts. *)
Context (seed : buffer).

(** Lines 50-53. *)
Definition isEncrypted (disk : Fs.t) (filePath : jsstring)
  : Completion bool :=
  data ← Fs.readFileSync disk filePath;
  mret (negb (JsString.startsWith (Utf8.decode data) (js "{"))).

(** Lines 57-76: the printed lines, and the parsed store or the exit
    code. *)
Definition decryptStore (disk : Fs.t) (privateKeyPath : jsstring)
  : list Output * Outcome Json.json :=
  let attempt : Completion Json.json :=
    encryptedData ← Fs.readFileSync disk STORE_FILE;
    privateKey ← Fs.readFileSync_utf8 disk privateKeyPath;
    decryptedData ←
      lift_crypto (privateDecrypt crypto privateKey encryptedData);
    JSON_parse (Utf8.decode decryptedData) in
  match attempt with
  | Normal parsed => ([], Returned parsed)
  | Throw error =>
    if is_SyntaxError error
    then ([Warn InvalidStoreFile], ProcessExit 2)
    else ([Warn DecryptionFailed; Warn (ErrorDetails (message error))],
          ProcessExit 3)
  end.

(** Lines 82-99: [encryptStore] once the path of the public key has been
    answered.  It ends the process after a save, and returns to its
    caller after a failure. *)
Definition encryptStore (s : Session) (publicKeyPath : jsstring)
  : Session * Outcome unit :=
  let attempt : Completion buffer :=
    publicKey ← Fs.readFileSync_utf8 (files s) publicKeyPath;
    let dataBuffer := Utf8.encode (Json.stringify (store s)) in
    lift_crypto (publicEncrypt crypto publicKey seed dataBuffer) in
  match attempt with
  | Normal encryptedData =>
    (print [Log StoreSaved]
       (with_files (Fs.writeFileSync (files s) STORE_FILE encryptedData) s),
     ProcessExit 0)
  | Throw error =>
    if JsString.includes (message error) (js "invalid key")
    then (print [Warn InvalidPublicKeyFile] s, Returned tt)
    else (print [Warn EncryptionFailed; Warn (ErrorDetails (message error))]
            s,
          Returned tt)
  end.

(** Lines 150-154: the body of menu entry 1 once key and value are
    known. *)
Definition add_entry (s : Session) (key value : jsstring) : Session :=
  let warning :=
    if JsObject.truthy (JsObject.get (store s) key)
    then [Log (OverwriteWarning key)] else [] in
  print (warning ++ [Log (AddedUpdated key value)])
    (with_store (JsObject.set (store s) key value) s).

(** Lines 162-167: the body of menu entry 2 for a non-empty answer. *)
Definition delete_entry (s : Session) (delKey : jsstring) : Session :=
  if JsObject.truthy (JsObject.get (store s) delKey)
  then print [Log (DeletedKey delKey)]
         (with_store (JsObject.remove (store s) delKey) s)
  else print [Log KeyNotFound] s.

(** The head of the menu loop, lines 129-139: print the menu and ask. *)
Definition menu (s : Session) : Session * Status :=
  (print [Log Menu] s, Awaiting AskChoice).

(** The store a parsed file gives, line 111 or 120, and on to the
    menu. *)
Definition adopt (s : Session) (parsed : Json.json) (out : list Output)
  : Session * Status :=
  match Json.as_store parsed with
  | Some o => menu (print out (with_store o s))
  | None => (print out s, OutsideDataModel)
  end.

(** [main] from its first line to its first question, lines 107-139. *)
Definition main (disk : Fs.t) : Session * Status :=
  let s := {| store := ∅; files := disk; console := [] |} in
  if Fs.existsSync disk STORE_FILE then
    match isEncrypted disk STORE_FILE with
    | Throw e => (s, Crashed e)
    | Normal true => (s, Awaiting AskPrivateKey)
    | Normal false =>
      let s := print [Log StoreNotEncrypted] s in
      match text ← Fs.readFileSync_utf8 disk STORE_FILE; JSON_parse text with
      | Normal parsed => adopt s parsed []
      | Throw _ => (print [Warn InvalidStoreFile] s, Exited 2)
      end
    end
  else menu s.

(** [main] from the answer to a question to the next question. *)
Definition answer (s : Session) (q : Pending) (line : jsstring)
  : Session * Status :=
  match q with
  | AskPrivateKey =>
    match decryptStore (files s) line with
    | (out, Returned parsed) => adopt (print out s) parsed [Log StoreDecrypted]
    | (out, ProcessExit code) => (print out s, Exited code)
    end
  | AskChoice =>
    let choice := JsString.trim line in
    if JsString.eqb choice (js "1") then (s, Awaiting AskKey)
    else if JsString.eqb choice (js "2") then (s, Awaiting AskDelKey)
    else if JsString.eqb choice (js "3") then
      menu (print [Log (CurrentStore (Json.stringify_indented (store s)))] s)
    else if JsString.eqb choice (js "4") then (s, Awaiting AskPublicKey)
    else if JsString.eqb choice (js "5") then
      (print [Log ExitingWithoutEncryption] s, Exited 0)
    else menu (print [Log InvalidOption] s)
  | AskKey =>
    if JsString.is_empty line then menu s
    else if negb (KeyValidator.isValidKey line)
    then (print [Log InvalidKey] s, Awaiting AskKey)
    else (s, Awaiting (AskValue line))
  | AskValue key => menu (add_entry s key line)
  | AskDelKey =>
    if JsString.is_empty line then menu s
    else menu (delete_entry s line)
  | AskPublicKey =>
    match encryptStore s line with
    | (s', Returned _) => menu s'
    | (s', ProcessExit code) => (s', Exited code)
    end
  end.

(** A run fed the user's answers in turn.  Once the process has ended,
    further input goes nowhere. *)
Definition step (st : Session * Status) (line : jsstring)
  : Session * Status :=
  match st.2 with
  | Awaiting q => answer st.1 q line
  | _ => st
  end.

Definition run (st : Session * Status) (lines : list jsstring)
  : Session * Status :=
  fold_left step lines st.

End Program.

(** Lines 6-30 and 189: the command line. *)
Definition launch (args : list jsstring) (disk : Fs.t) : Session * Status :=
  let help :=
    ({| store := ∅; files := disk; console := [Log HelpText] |}, Exited 0) in
  match args with
  | [] => help
  | STORE_FILE :: _ =>
    if JsString.is_empty STORE_FILE
       || existsb (fun a => JsString.eqb a (js "--help")) args
    then help
    else main STORE_FILE disk
  end.

End App.


(** ** Assumptions on the RSA primitive, and a stand-in to test with *)

(** [pub] and [priv] are the two halves of one RSA key: whatever fits the
    OAEP capacity [cap] (in bytes) of the key is encrypted by [pub],
    whatever the seed, and [priv] decrypts the result to the same
    bytes. *)
Definition key_pair (crypto : Crypto) (cap : nat) (pub priv : jsstring)
  : Prop :=
  forall (seed data : buffer),
    (length data <= cap)%nat ->
    exists encrypted,
      publicEncrypt crypto pub seed data = inr encrypted
      /\ privateDecrypt crypto priv encrypted = inr data.

(** [pub] is a usable key of OAEP capacity [cap]: a longer payload makes
    [publicEncrypt] throw OpenSSL's error ("data too large for key
    size"), whose message does not mention an invalid key. *)
Definition oversize_rejected (crypto : Crypto) (cap : nat) (pub : jsstring)
  : Prop :=
  forall (seed data : buffer),
    (cap < length data)%nat ->
    exists message,
      publicEncrypt crypto pub seed data = inl message
      /\ JsString.includes message (js "invalid key") = false.

(** Every key and value of the store is a sequence of 16-bit code
    units. *)
Definition store_wf (o : Store) : Prop :=
  map_Forall (fun k v => JsString.wf k /\ JsString.wf v) o.

(** A stand-in for RSA-OAEP, for running the program on examples.  A key
    file reads [PUBLIC c] or [PRIVATE c], where the character [c] names
    the key pair; the capacity is 32 bytes; a ciphertext is the name of
    the pair followed by the payload reversed. *)
Module Demo.

Definition capacity : nat := 32.

Definition key_name (kind text : jsstring) : option N :=
  if JsString.startsWith text kind then
    match drop (length kind) text with
    | [c] => Some c
    | _ => None
    end
  else None.

Definition too_large : jsstring :=
  js "error:0200006E:rsa routines::data too large for key size".
Definition unsupported : jsstring :=
  js "error:1E08010C:DECODER routines::unsupported".
Definition decoding_error : jsstring :=
  js "error:02000079:rsa routines::oaep decoding error".

Definition encrypt (key : jsstring) (seed data : buffer)
  : jsstring + buffer :=
  match key_name (js "PUBLIC ") key with
  | Some c =>
    if (length data <=? capacity)%nat
    then inr (Utf8.byte_of_N c :: rev data)
    else inl too_large
  | None => inl unsupported
  end.

Definition decrypt (key : jsstring) (data : buffer) : jsstring + buffer :=
  match key_name (js "PRIVATE ") key with
  | Some c =>
    match data with
    | b :: r =>
      if Byte.eqb b (Utf8.byte_of_N c) then inr (rev r)
      else inl decoding_error
    | [] => inl decoding_error
    end
  | None => inl unsupported
  end.

Definition crypto : Crypto :=
  {| publicEncrypt := encrypt; privateDecrypt := decrypt |}.

Definition file (text : String.string) : buffer := Utf8.encode (js text).

(** A disk with two key pairs and no store file. *)
Definition keys : Fs.t :=
  {[ js "a.pub" := file "PUBLIC A"; js "a.pem" := file "PRIVATE A";
     js "b.pub" := file "PUBLIC B"; js "b.pem" := file "PRIVATE B" ]}.

Definition session (o : Store) : Session :=
  {| store := o; files := keys; console := [] |}.

End Demo.

(** ** Vocabulary of the statements *)

(** The ways the [try] block of [encryptStore] can fail: the key file
    cannot be read, or [publicEncrypt] throws (the file is not a key, the
    payload is too large, or anything else OpenSSL reports). *)
Definition save_fails (crypto : Crypto) (seed : buffer) (s : Session)
  (publicKeyPath : jsstring) : Prop :=
  (exists e, Fs.readFileSync_utf8 (files s) publicKeyPath = Throw e)
  \/ (exists publicKey message,
        Fs.readFileSync_utf8 (files s) publicKeyPath = Normal publicKey
        /\ publicEncrypt crypto publicKey seed
             (Utf8.encode (Json.stringify (store s))) = inl message).

(** What [encryptStore] prints, on the error stream, when it fails. *)
Definition failure_report (out : list Output) : Prop :=
  out = [Warn InvalidPublicKeyFile]
  \/ exists details, out = [Warn EncryptionFailed; Warn (ErrorDetails details)].

(** Well-formed UTF-16: every surrogate is half of a pair, a high one
    followed by a low one. *)
Fixpoint paired (s : jsstring) : bool :=
  match s with
  | [] => true
  | c :: r =>
    if Utf8.is_high_surrogate c then
      match r with
      | d :: r' => Utf8.is_low_surrogate d && paired r'
      | [] => false
      end
    else negb (Utf8.is_low_surrogate c) && paired r
  end.

(** A string [Buffer.from] and [toString] carry unchanged. *)
Definition utf16 (s : jsstring) : Prop := JsString.wf s /\ paired s = true.

(** Every own property of the store has a key [isValidKey] accepts, and
    none is ["__proto__"]. *)
Definition keys_valid (o : Store) : Prop :=
  forall k, is_Some (o !! k) ->
    KeyValidator.isValidKey k = true /\ k <> js "__proto__".

(** The state of a run whose store holds validated keys only, the key
    waiting for its value included. *)
Definition validated (st : Session * Status) : Prop :=
  keys_valid (store st.1)
  /\ forall key, st.2 = Awaiting (AskValue key) ->
       KeyValidator.isValidKey key = true.

(** Past loading: the program is at the menu or inside one of its
    entries, or has ended with exit code 0. *)
Definition past_loading (status : Status) : Prop :=
  match status with
  | Awaiting AskPrivateKey => False
  | Awaiting _ => True
  | Exited code => code = 0%Z
  | Crashed _ => False
  | OutsideDataModel => False
  end.


(** * Properties *)

(** ** Key validation *)

Lemma in_class_allowed (c : N) :
  KeyValidator.in_class c = true <-> KeyValidator.allowed c.
Proof.
  unfold KeyValidator.in_class, KeyValidator.allowed,
    KeyValidator.is_letter, KeyValidator.is_digit.
  cbn [existsb KeyValidator.key_class KeyValidator.item_matches].
  rewrite !orb_true_iff, !andb_true_iff, !N.leb_le, !N.eqb_eq.
  intuition (discriminate || lia).
Qed.

Lemma regex_test_spec (key : jsstring) :
  KeyValidator.regex_test key = true
  <-> key <> [] /\ Forall KeyValidator.allowed key.
Proof.
  destruct key as [|c rest]; cbn [KeyValidator.regex_test].
  - split; [discriminate | intros [H _]; congruence].
  - rewrite andb_true_iff, forallb_forall, Forall_cons, in_class_allowed.
    rewrite Forall_forall. setoid_rewrite in_class_allowed.
    setoid_rewrite list_elem_of_In. intuition congruence.
Qed.

Lemma startsWith_unit (s : jsstring) (c : N) :
  JsString.startsWith s [c] = true <-> head s = Some c.
Proof.
  destruct s as [|d s]; cbn.
  - split; discriminate.
  - rewrite andb_true_r, N.eqb_eq. split; [intros ->; done | congruence].
Qed.

Lemma head_rev {A} (l : list A) : head (rev l) = last l.
Proof.
  induction l as [|x l IH] using rev_ind; [done|].
  rewrite rev_app_distr, last_snoc. done.
Qed.

Lemma endsWith_unit (s : jsstring) (c : N) :
  JsString.endsWith s [c] = true <-> last s = Some c.
Proof.
  unfold JsString.endsWith. cbn [rev app].
  rewrite startsWith_unit, head_rev. done.
Qed.

(** C7: [isValidKey] accepts exactly the keys that are non-empty, made of
    letters, digits, space, underscore and hyphen only, and neither begin
    nor end with a space; ["my_key-1"] is accepted, [" leading"],
    ["trailing "], the empty key and ["bad!key"] are rejected. *)
Theorem isValidKey_spec :
  (forall key : jsstring,
     KeyValidator.isValidKey key = true <-> KeyValidator.spec_valid key)
  /\ KeyValidator.isValidKey (js "my_key-1") = true
  /\ KeyValidator.isValidKey (js " leading") = false
  /\ KeyValidator.isValidKey (js "trailing ") = false
  /\ KeyValidator.isValidKey ([]) = false
  /\ KeyValidator.isValidKey (js "bad!key") = false.
Proof.
  split; [|repeat split; reflexivity].
  intros key. unfold KeyValidator.isValidKey, KeyValidator.spec_valid.
  rewrite !andb_true_iff, !negb_true_iff, regex_test_spec.
  rewrite <- !not_true_iff_false.
  change (js " ") with [32].
  rewrite startsWith_unit, endsWith_unit. tauto.
Qed.

(** ** Format detection *)

(** Division and remainder by constants, for [lia]. *)
Ltac Zify.zify_post_hook ::= Z.to_euclidean_division_equations.

(** Turns boolean comparisons on [N], in the hypotheses and the goal,
    into propositions [lia] understands. *)
Ltac nprop :=
  unfold Utf8.is_continuation, Utf8.is_high_surrogate,
    Utf8.is_low_surrogate, Utf8.between, Utf8.replacement in *;
  repeat match goal with
  | H : (_ && _) = true |- _ => apply andb_true_iff in H; destruct H
  | H : (_ && _) = false |- _ => apply andb_false_iff in H; destruct H
  | H : (_ || _) = true |- _ => apply orb_true_iff in H; destruct H
  | H : (_ || _) = false |- _ => apply orb_false_iff in H; destruct H
  | H : (_ <? _) = true |- _ => apply N.ltb_lt in H
  | H : (_ <? _) = false |- _ => apply N.ltb_ge in H
  | H : (_ <=? _) = true |- _ => apply N.leb_le in H
  | H : (_ <=? _) = false |- _ => apply N.leb_gt in H
  | H : (_ =? _) = true |- _ => apply N.eqb_eq in H
  | H : (_ =? _) = false |- _ => apply N.eqb_neq in H
  end.

Lemma byte_to_N_inj (a b : byte) : Byte.to_N a = Byte.to_N b -> a = b.
Proof.
  intros H. pose proof (Byte.of_to_N a) as Ha.
  rewrite H, Byte.of_to_N in Ha. congruence.
Qed.

Lemma decode_starts_with_brace (b : byte) (r : buffer) :
  JsString.startsWith (Utf8.decode (b :: r)) (js "{")
  = (Byte.to_N b =? 123).
Proof.
  change (js "{") with [123].
  cbn [Utf8.decode]. cbv zeta.
  set (x0 := Byte.to_N b).
  unfold Utf8.surrogates, Utf8.second_of_three, Utf8.second_of_four.
  repeat case_match; cbn [JsString.startsWith app];
    rewrite ?andb_true_r; nprop;
    destruct (N.eqb_spec x0 123);
    match goal with |- (123 =? ?y) = _ => destruct (N.eqb_spec 123 y) end;
    try reflexivity; lia.
Qed.

Lemma classified_by_first_byte (data : buffer) :
  JsString.startsWith (Utf8.decode data) (js "{") = true
  <-> head data = Some x7b.
Proof.
  destruct data as [|b r].
  - cbn. split; discriminate.
  - rewrite decode_starts_with_brace, N.eqb_eq. cbn [head]. split.
    + intros H. f_equal. apply byte_to_N_inj. exact H.
    + intros [= ->]. reflexivity.
Qed.

(** C8: [isEncrypted] answers [false] (plaintext) exactly when the first
    byte of the file is an open brace, and [true] (encrypted) for any
    other content; the answer depends on the content of the file only. *)
Theorem isEncrypted_first_byte (disk : Fs.t) (filePath : jsstring)
    (data : buffer) :
  Fs.readFileSync disk filePath = Normal data ->
  (exists encrypted : bool,
     App.isEncrypted disk filePath = Normal encrypted
     /\ (encrypted = false <-> head data = Some x7b)
     /\ (encrypted = true <-> head data <> Some x7b))
  /\ (forall (disk' : Fs.t) (filePath' : jsstring),
        Fs.readFileSync disk' filePath' = Normal data ->
        App.isEncrypted disk' filePath' = App.isEncrypted disk filePath).
Proof.
  intros Hread. unfold App.isEncrypted. rewrite Hread. split.
  - eexists. split; [reflexivity|].
    rewrite negb_false_iff, negb_true_iff, <- not_true_iff_false.
    rewrite classified_by_first_byte. tauto.
  - intros disk' filePath' ->. reflexivity.
Qed.

Lemma isEncrypted_first_byte_witness :
  Fs.readFileSync {[ js "store" := Demo.file "{}" ]} (js "store")
    = Normal (Demo.file "{}")
  /\ App.isEncrypted {[ js "store" := Demo.file "{}" ]} (js "store")
     = Normal false.
Proof.
  assert (Fs.readFileSync {[ js "store" := Demo.file "{}" ]} (js "store")
          = Normal (Demo.file "{}")) as Hread by reflexivity.
  split; [exact Hread|].
  destruct (isEncrypted_first_byte _ _ _ Hread) as [[e [-> [He _]]] _].
  f_equal. apply He. reflexivity.
Defined.

(** C10: a store file of zero bytes is classified as encrypted, and
    [main] goes on to ask for the private key instead of parsing the file
    as plaintext. *)
Theorem empty_file_is_encrypted (STORE_FILE : jsstring) (disk : Fs.t) :
  disk !! STORE_FILE = Some [] ->
  App.isEncrypted disk STORE_FILE = Normal true
  /\ App.main STORE_FILE disk
     = ({| store := ∅; files := disk; console := [] |},
        Awaiting AskPrivateKey).
Proof.
  intros Hfile.
  assert (App.isEncrypted disk STORE_FILE = Normal true) as He.
  { unfold App.isEncrypted, Fs.readFileSync. rewrite Hfile. reflexivity. }
  split; [exact He|].
  unfold App.main, Fs.existsSync. rewrite He.
  rewrite bool_decide_eq_true_2; [reflexivity|]. rewrite Hfile. eauto.
Qed.

Lemma empty_file_is_encrypted_witness :
  App.main (js "store") {[ js "store" := [] ]}
  = ({| store := ∅; files := {[ js "store" := [] ]}; console := [] |},
     Awaiting AskPrivateKey).
Proof.
  apply (empty_file_is_encrypted (js "store") {[ js "store" := [] ]}).
  reflexivity.
Defined.

(** ** Adding and deleting entries *)

Lemma add_entry_store (s : Session) (key value : jsstring) :
  store (App.add_entry s key value) = JsObject.set (store s) key value.
Proof. reflexivity. Qed.

Lemma add_entry_console (s : Session) (key value : jsstring) :
  console (App.add_entry s key value)
  = console s
    ++ (if JsObject.truthy (JsObject.get (store s) key)
        then [Log (OverwriteWarning key)] else [])
    ++ [Log (AddedUpdated key value)].
Proof. reflexivity. Qed.

(** The example of the specification: from the empty store, setting
    ["a"] to ["1"] and then to ["2"] leaves [{"a":"2"}] and warns once. *)
Example set_twice :
  let r := App.run Demo.crypto (js "store") [] (App.main (js "store") ∅)
             [js "1"; js "a"; js "1"; js "1"; js "a"; js "2"] in
  store r.1 = {[ js "a" := js "2" ]}
  /\ console r.1
     = [Log Menu; Log (AddedUpdated (js "a") (js "1")); Log Menu;
        Log (OverwriteWarning (js "a")); Log (AddedUpdated (js "a") (js "2"));
        Log Menu]
  /\ r.2 = Awaiting AskChoice.
Proof. vm_compute. repeat split; reflexivity. Qed.

(** C5, where the program departs from it: the user sets ["a"] to the
    empty string and then to ["2"].  The second answer overwrites an
    entry that exists, and no warning is printed. *)
Theorem overwrite_of_empty_value_not_reported :
  let before := App.run Demo.crypto (js "store") []
                  (App.main (js "store") ∅) [js "1"; js "a"; []] in
  let after := App.run Demo.crypto (js "store") [] before
                 [js "1"; js "a"; js "2"] in
  store before.1 !! js "a" = Some ([])
  /\ store after.1 = {[ js "a" := js "2" ]}
  /\ console after.1
     = console before.1 ++ [Log (AddedUpdated (js "a") (js "2")); Log Menu].
Proof. vm_compute. repeat split; reflexivity. Qed.

(** C6, where the program departs from it: the user sets ["a"] to the
    empty string and then deletes ["a"].  The entry exists, yet the
    program prints that the key was not found and keeps the entry. *)
Theorem delete_of_empty_value_not_found :
  let before := App.run Demo.crypto (js "store") []
                  (App.main (js "store") ∅) [js "1"; js "a"; []] in
  let after := App.run Demo.crypto (js "store") [] before
                 [js "2"; js "a"] in
  store before.1 !! js "a" = Some ([])
  /\ store after.1 = store before.1
  /\ console after.1 = console before.1 ++ [Log KeyNotFound; Log Menu].
Proof. vm_compute. repeat split; reflexivity. Qed.

(** C9: whether a key counts as present is the truthiness of
    [store[key]].  An entry whose value is the empty string is treated as
    absent: setting it prints no warning, deleting it prints "Key not
    found." and leaves it in place.  A store that never stored
    ["constructor"] still yields a truthy [store["constructor"]], so
    setting that key prints an overwrite warning. *)
Theorem presence_is_truthiness (s o : Session) (key value : jsstring) :
  store s !! key = Some [] ->
  store o !! js "constructor" = None ->
  (console (App.add_entry s key value)
     = console s ++ [Log (AddedUpdated key value)]
   /\ App.delete_entry s key = print [Log KeyNotFound] s
   /\ store (App.delete_entry s key) !! key = Some [])
  /\ console (App.add_entry o (js "constructor") value)
     = console o ++ [Log (OverwriteWarning (js "constructor"));
                     Log (AddedUpdated (js "constructor") value)]
  /\ (forall (t : Session) (k v : jsstring),
        Log (OverwriteWarning k) ∈ drop (length (console t))
                                     (console (App.add_entry t k v))
        <-> JsObject.truthy (JsObject.get (store t) k) = true)
  /\ (forall (t : Session) (k : jsstring),
        store (App.delete_entry t k) = store t
        <-> JsObject.truthy (JsObject.get (store t) k) = false
            \/ store t !! k = None).
Proof.
  intros Hs Ho. repeat split.
  - rewrite add_entry_console. unfold JsObject.get. rewrite Hs. reflexivity.
  - unfold App.delete_entry, JsObject.get. rewrite Hs. reflexivity.
  - unfold App.delete_entry, JsObject.get. rewrite Hs. exact Hs.
  - rewrite add_entry_console. unfold JsObject.get. rewrite Ho. reflexivity.
  - rewrite add_entry_console, drop_app_length.
    destruct (JsObject.truthy _); [done|].
    intros H. apply list_elem_of_singleton in H. discriminate.
  - rewrite add_entry_console, drop_app_length. intros ->. left.
  - unfold App.delete_entry.
    destruct (JsObject.truthy _) eqn:Ht; [|by left].
    cbn. unfold JsObject.remove. intros Hdel. right.
    rewrite <- Hdel. apply lookup_delete_eq.
  - unfold App.delete_entry. intros [-> | Hnone]; [done|].
    destruct (JsObject.truthy _); [|done].
    cbn. unfold JsObject.remove. by apply delete_id.
Qed.

Lemma presence_is_truthiness_witness :
  console (App.add_entry (Demo.session {[ js "a" := [] ]}) (js "a") (js "2"))
  = [Log (AddedUpdated (js "a") (js "2"))]
  /\ console (App.add_entry (Demo.session ∅) (js "constructor") (js "x"))
     = [Log (OverwriteWarning (js "constructor"));
        Log (AddedUpdated (js "constructor") (js "x"))].
Proof.
  assert (store (Demo.session {[ js "a" := [] ]}) !! js "a" = Some [])
    as Hs by reflexivity.
  assert (store (Demo.session ∅) !! js "constructor" = None)
    as Ho by reflexivity.
  destruct (presence_is_truthiness _ _ _ (js "2") Hs Ho)
    as [[Hadd _] _].
  destruct (presence_is_truthiness _ _ _ (js "x") Hs Ho)
    as [_ [Hctor _]].
  split; [exact Hadd | exact Hctor].
Defined.

(** ** Saving: [encryptStore] *)

Lemma answer_public_key (crypto : Crypto) (STORE_FILE : jsstring)
    (seed : buffer) (s : Session) (line : jsstring) :
  App.answer crypto STORE_FILE seed s AskPublicKey line
  = match App.encryptStore crypto STORE_FILE seed s line with
    | (s', Returned _) => App.menu s'
    | (s', ProcessExit code) => (s', Exited code)
    end.
Proof. reflexivity. Qed.

(** What the [catch] block of [encryptStore] does with a thrown error,
    followed by the return to the menu. *)
Lemma caught_in_encryptStore (s : Session) (error : Error) :
  let r := App.menu
             (if JsString.includes (message error) (js "invalid key")
              then print [Warn InvalidPublicKeyFile] s
              else print [Warn EncryptionFailed;
                          Warn (ErrorDetails (message error))] s) in
  store r.1 = store s
  /\ files r.1 = files s
  /\ (exists report,
        failure_report report
        /\ console r.1 = console s ++ report ++ [Log Menu])
  /\ r.2 = Awaiting AskChoice.
Proof.
  destruct (JsString.includes _ _); cbn; repeat split.
  - exists [Warn InvalidPublicKeyFile]. split; [by left|].
    by rewrite <- app_assoc.
  - eexists. split; [right; eauto|]. by rewrite <- app_assoc.
Qed.

(** C4: when [encryptStore] fails, because the key file cannot be read
    or because [publicEncrypt] throws, the store in memory and the files
    on disk are as before, the failure is printed, and the program is
    back at the menu, asking for the next choice. *)
Theorem save_failure_is_recoverable (crypto : Crypto)
    (STORE_FILE : jsstring) (seed : buffer) (s : Session)
    (publicKeyPath : jsstring) :
  save_fails crypto seed s publicKeyPath ->
  let r := App.answer crypto STORE_FILE seed s AskPublicKey publicKeyPath in
  store r.1 = store s
  /\ files r.1 = files s
  /\ (exists report,
        failure_report report
        /\ console r.1 = console s ++ report ++ [Log Menu])
  /\ r.2 = Awaiting AskChoice.
Proof.
  intros Hfail. rewrite answer_public_key. unfold App.encryptStore.
  destruct Hfail as [[e He] | (publicKey & msg & Hkey & Hmsg)].
  - rewrite He. cbn [mbind Completion_bind].
    destruct (JsString.includes _ _) eqn:Hi;
      pose proof (caught_in_encryptStore s e) as H; rewrite Hi in H; exact H.
  - rewrite Hkey. cbn [mbind Completion_bind]. rewrite Hmsg.
    cbn [lift_crypto].
    destruct (JsString.includes _ _) eqn:Hi;
      pose proof (caught_in_encryptStore s (OtherError msg)) as H;
      rewrite Hi in H; exact H.
Qed.

Lemma save_failure_is_recoverable_witness :
  let s := Demo.session {[ js "a" := js "1" ]} in
  let r := App.answer Demo.crypto (js "store") [] s AskPublicKey
             (js "missing.pub") in
  store r.1 = store s /\ files r.1 = files s /\ r.2 = Awaiting AskChoice.
Proof.
  intros s r.
  assert (save_fails Demo.crypto [] s (js "missing.pub")) as Hfail.
  { left. eexists. reflexivity. }
  destruct (save_failure_is_recoverable Demo.crypto (js "store") [] s
              (js "missing.pub") Hfail) as (Hs & Hf & _ & Hq).
  repeat split; assumption.
Defined.

(** C2: when the serialized store is longer than the OAEP capacity of
    the public key, encrypt-and-save prints "Encryption failed." with the
    details, writes nothing, does not end the process, and the program is
    back at the menu with the store as it was. *)
Theorem oversize_store_is_reported (crypto : Crypto) (STORE_FILE : jsstring)
    (seed : buffer) (s : Session) (publicKeyPath publicKey : jsstring)
    (cap : nat) :
  Fs.readFileSync_utf8 (files s) publicKeyPath = Normal publicKey ->
  oversize_rejected crypto cap publicKey ->
  (cap < length (Utf8.encode (Json.stringify (store s))))%nat ->
  let r := App.answer crypto STORE_FILE seed s AskPublicKey publicKeyPath in
  store r.1 = store s
  /\ files r.1 = files s
  /\ (exists details,
        console r.1
        = console s ++ [Warn EncryptionFailed; Warn (ErrorDetails details);
                        Log Menu])
  /\ r.2 = Awaiting AskChoice.
Proof.
  intros Hkey Hrej Hlen.
  destruct (Hrej seed _ Hlen) as (msg & Hmsg & Hinc).
  rewrite answer_public_key. unfold App.encryptStore.
  rewrite Hkey. cbn [mbind Completion_bind]. rewrite Hmsg.
  cbn [lift_crypto OtherError message]. rewrite Hinc. cbn.
  repeat split. exists msg. by rewrite <- app_assoc.
Qed.

Lemma demo_rejects_oversize :
  oversize_rejected Demo.crypto Demo.capacity (js "PUBLIC A").
Proof.
  intros seed data Hlen. exists Demo.too_large. split; [|reflexivity].
  cbn [publicEncrypt Demo.crypto]. unfold Demo.encrypt.
  change (Demo.key_name (js "PUBLIC ") (js "PUBLIC A")) with (Some 65).
  destruct (Nat.leb_spec (length data) Demo.capacity); [lia | reflexivity].
Qed.

Lemma oversize_store_is_reported_witness :
  let s := Demo.session
             {[ js "note" := js "a value longer than the key allows" ]} in
  let r := App.answer Demo.crypto (js "store") [] s AskPublicKey
             (js "a.pub") in
  store r.1 = store s /\ files r.1 = files s /\ r.2 = Awaiting AskChoice.
Proof.
  intros s r.
  assert (Fs.readFileSync_utf8 (files s) (js "a.pub")
          = Normal (js "PUBLIC A")) as Hkey by reflexivity.
  assert (Demo.capacity
          < length (Utf8.encode (Json.stringify (store s))))%nat as Hlen
    by (vm_compute; lia).
  destruct (oversize_store_is_reported Demo.crypto (js "store") [] s
              (js "a.pub") (js "PUBLIC A") Demo.capacity
              Hkey demo_rejects_oversize Hlen) as (Hs & Hf & _ & Hq).
  repeat split; assumption.
Defined.

(** ** Loading: [decryptStore] *)

Lemma main_on_encrypted_file (STORE_FILE : jsstring) (disk : Fs.t)
    (data : buffer) :
  disk !! STORE_FILE = Some data ->
  head data <> Some x7b ->
  App.main STORE_FILE disk
  = ({| store := ∅; files := disk; console := [] |}, Awaiting AskPrivateKey).
Proof.
  intros Hfile Hhead. unfold App.main, Fs.existsSync.
  rewrite bool_decide_eq_true_2 by (rewrite Hfile; eauto).
  unfold App.isEncrypted, Fs.readFileSync. rewrite Hfile.
  cbn [mbind Completion_bind mret Completion_ret].
  destruct (JsString.startsWith _ _) eqn:Hs; [|reflexivity].
  apply classified_by_first_byte in Hs. contradiction.
Qed.

(** C3: loading an existing encrypted store file.  If [privateDecrypt]
    rejects the ciphertext and key (a wrong key, corrupted data, wrong
    padding), the process ends with exit code 3 after "Decryption
    failed."; if it succeeds and the plaintext is not JSON, the process
    ends with exit code 2 after "Invalid store file.". *)
Theorem load_failure_exit_codes (crypto : Crypto) (STORE_FILE : jsstring)
    (seed : buffer) (disk : Fs.t) (encryptedData : buffer)
    (privateKeyPath privateKey : jsstring) :
  disk !! STORE_FILE = Some encryptedData ->
  head encryptedData <> Some x7b ->
  Fs.readFileSync_utf8 disk privateKeyPath = Normal privateKey ->
  let r := App.run crypto STORE_FILE seed (App.main STORE_FILE disk)
             [privateKeyPath] in
  match privateDecrypt crypto privateKey encryptedData with
  | inl details =>
    r.2 = Exited 3
    /\ console r.1 = [Warn DecryptionFailed; Warn (ErrorDetails details)]
  | inr decryptedData =>
    Json.parse (Utf8.decode decryptedData) = None ->
    r.2 = Exited 2 /\ console r.1 = [Warn InvalidStoreFile]
  end.
Proof.
  intros Hfile Hhead Hkey r. subst r.
  rewrite (main_on_encrypted_file _ _ _ Hfile Hhead).
  cbn [App.run fold_left App.step snd fst App.answer files].
  unfold App.decryptStore, Fs.readFileSync. rewrite Hfile.
  cbn [mbind Completion_bind]. rewrite Hkey. cbn [mbind Completion_bind].
  destruct (privateDecrypt crypto privateKey encryptedData) as [msg | pt].
  - cbn. split; reflexivity.
  - intros Hparse. cbn [lift_crypto mbind Completion_bind].
    unfold JSON_parse. rewrite Hparse. cbn. split; reflexivity.
Qed.

(** A wrong private key against a valid ciphertext: the store was
    encrypted for pair A and is opened with the key of pair B. *)
Lemma load_failure_exit_codes_witness :
  let disk := <[ js "store" := x41 :: rev (Demo.file "{}") ]> Demo.keys in
  (App.run Demo.crypto (js "store") [] (App.main (js "store") disk)
     [js "b.pem"]).2 = Exited 3.
Proof.
  intros disk.
  assert (disk !! js "store" = Some (x41 :: rev (Demo.file "{}")))
    as Hfile by reflexivity.
  assert (head (x41 :: rev (Demo.file "{}")) <> Some x7b)
    as Hhead by discriminate.
  assert (Fs.readFileSync_utf8 disk (js "b.pem") = Normal (js "PRIVATE B"))
    as Hkey by reflexivity.
  exact (proj1 (load_failure_exit_codes Demo.crypto (js "store") [] disk _
                  (js "b.pem") (js "PRIVATE B") Hfile Hhead Hkey)).
Defined.

(** ** UTF-8: decoding what was encoded *)

(** Induction that follows functions consuming one code unit or a
    surrogate pair at a time. *)
Lemma pairwise_ind {A} (P : list A -> Prop) :
  P [] ->
  (forall c, P [c]) ->
  (forall c d r, P r -> P (d :: r) -> P (c :: d :: r)) ->
  forall s, P s.
Proof.
  intros Hnil Hone Hstep s.
  enough (P s /\ forall c, P (c :: s)) as [H _] by exact H.
  induction s as [|d r [IH1 IH2]]; split; auto.
Qed.

Lemma to_N_byte_of_N (n : N) : n < 256 -> Byte.to_N (Utf8.byte_of_N n) = n.
Proof.
  intros Hn. unfold Utf8.byte_of_N. rewrite N.mod_small by exact Hn.
  destruct (Byte.of_N n) as [b|] eqn:Hb.
  - by apply Byte.to_of_N.
  - apply Byte.of_N_None_iff in Hb. lia.
Qed.

Lemma decode_cons (b0 : byte) (r0 : buffer) :
  Utf8.decode (b0 :: r0)
  = ltac:(let t := eval cbn [Utf8.decode] in (Utf8.decode (b0 :: r0)) in
          exact t).
Proof. reflexivity. Qed.

(** Proves that a boolean test on [N] is [true], or is [false], by
    arithmetic. *)
Ltac test_arith :=
  unfold Utf8.second_of_three, Utf8.second_of_four;
  repeat match goal with
         | |- context [if ?a =? ?b then _ else _] =>
           destruct (N.eqb_spec a b); cbv iota
         end;
  unfold Utf8.is_continuation, Utf8.is_high_surrogate,
    Utf8.is_low_surrogate, Utf8.between;
  rewrite ?andb_true_iff, ?andb_false_iff, ?orb_true_iff, ?orb_false_iff,
    ?N.leb_le, ?N.leb_gt, ?N.ltb_lt, ?N.ltb_ge, ?N.eqb_eq, ?N.eqb_neq;
  lia.

(** Rewrites a boolean test to the value arithmetic gives it. *)
Ltac decide_test t :=
  let H := fresh in
  first [ assert (t = true) as H by test_arith
        | assert (t = false) as H by test_arith ];
  rewrite H; clear H.

Ltac decide_tests :=
  repeat match goal with
         | |- context [if ?t then _ else _] => decide_test t; cbv iota
         end.

Lemma decode_one (b0 : byte) (r : buffer) :
  Byte.to_N b0 < 128 ->
  Utf8.decode (b0 :: r) = Byte.to_N b0 :: Utf8.decode r.
Proof.
  intros H0. rewrite decode_cons. cbv zeta. decide_tests. reflexivity.
Qed.

Lemma decode_two (b0 b1 : byte) (r : buffer) :
  194 <= Byte.to_N b0 <= 223 ->
  128 <= Byte.to_N b1 <= 191 ->
  Utf8.decode (b0 :: b1 :: r)
  = ((Byte.to_N b0 - 192) * 64 + (Byte.to_N b1 - 128)) :: Utf8.decode r.
Proof.
  intros H0 H1. rewrite decode_cons. cbv zeta. decide_tests. reflexivity.
Qed.

Lemma decode_three (b0 b1 b2 : byte) (r : buffer) :
  224 <= Byte.to_N b0 <= 239 ->
  Utf8.second_of_three (Byte.to_N b0) (Byte.to_N b1) = true ->
  128 <= Byte.to_N b2 <= 191 ->
  Utf8.decode (b0 :: b1 :: b2 :: r)
  = ((Byte.to_N b0 - 224) * 4096 + (Byte.to_N b1 - 128) * 64
     + (Byte.to_N b2 - 128)) :: Utf8.decode r.
Proof.
  intros H0 H1 H2. rewrite decode_cons. cbv zeta. rewrite H1.
  decide_tests. reflexivity.
Qed.

Lemma decode_four (b0 b1 b2 b3 : byte) (r : buffer) :
  240 <= Byte.to_N b0 <= 244 ->
  Utf8.second_of_four (Byte.to_N b0) (Byte.to_N b1) = true ->
  128 <= Byte.to_N b2 <= 191 ->
  128 <= Byte.to_N b3 <= 191 ->
  Utf8.decode (b0 :: b1 :: b2 :: b3 :: r)
  = Utf8.surrogates
      ((Byte.to_N b0 - 240) * 262144 + (Byte.to_N b1 - 128) * 4096
       + (Byte.to_N b2 - 128) * 64 + (Byte.to_N b3 - 128))
    ++ Utf8.decode r.
Proof.
  intros H0 H1 H2 H3. rewrite decode_cons. cbv zeta. rewrite H1.
  decide_tests. reflexivity.
Qed.

(** One code point, not a surrogate, encoded and decoded again. *)
Lemma decode_encode_code_point (cp : N) (r : buffer) :
  cp < 1114112 ->
  ~ 55296 <= cp <= 57343 ->
  Utf8.decode (Utf8.encode_code_point cp ++ r)
  = (if cp <? 65536 then [cp] else Utf8.surrogates cp) ++ Utf8.decode r.
Proof.
  intros Hmax Hsur. unfold Utf8.encode_code_point.
  destruct (N.ltb_spec cp 128); [|destruct (N.ltb_spec cp 2048);
    [|destruct (N.ltb_spec cp 65536)]]; cbn [app].
  - rewrite decode_one; rewrite !to_N_byte_of_N by lia; [|lia].
    decide_tests. reflexivity.
  - rewrite decode_two; rewrite !to_N_byte_of_N by lia; [|lia..].
    decide_tests. cbn [app]. f_equal. lia.
  - rewrite decode_three; rewrite !to_N_byte_of_N by lia; [| lia | | lia].
    + decide_tests. cbn [app]. f_equal. lia.
    + test_arith.
  - rewrite decode_four; rewrite !to_N_byte_of_N by lia; [| lia | | lia..].
    + decide_tests. f_equal. f_equal. lia.
    + test_arith.
Qed.

Lemma surrogates_of_pair (c d : N) :
  55296 <= c <= 56319 ->
  56320 <= d <= 57343 ->
  Utf8.surrogates (65536 + (c - 55296) * 1024 + (d - 56320)) = [c; d].
Proof. intros Hc Hd. unfold Utf8.surrogates. f_equal; [|f_equal]; lia. Qed.

(** [buf.toString()] undoes [Buffer.from(s)] on well-formed strings. *)
Lemma decode_encode (s : jsstring) :
  JsString.wf s -> paired s = true -> Utf8.decode (Utf8.encode s) = s.
Proof.
  unfold JsString.wf.
  induction s as [|c|c d r IHr IHdr] using pairwise_ind; intros Hwf Hp.
  - reflexivity.
  - apply Forall_cons in Hwf as [Hc _]. cbn [paired] in Hp.
    cbn [Utf8.encode].
    destruct (Utf8.is_high_surrogate c) eqn:Hh; [discriminate|].
    destruct (Utf8.is_low_surrogate c) eqn:Hl; [discriminate|].
    rewrite decode_encode_code_point by (nprop; lia).
    decide_tests. reflexivity.
  - pose proof Hwf as Hwf'.
    apply Forall_cons in Hwf' as [Hc Hwf'].
    pose proof Hwf' as Hwf''. apply Forall_cons in Hwf'' as [Hd Hwf''].
    cbn [paired] in Hp. cbn [Utf8.encode].
    destruct (Utf8.is_high_surrogate c) eqn:Hh.
    + apply andb_true_iff in Hp as [Hl Hp]. rewrite Hl.
      rewrite decode_encode_code_point by (nprop; lia).
      decide_tests. rewrite surrogates_of_pair by (nprop; lia).
      cbn [app]. rewrite IHr by assumption. reflexivity.
    + apply andb_true_iff in Hp as [Hl Hp]. apply negb_true_iff in Hl.
      rewrite Hl.
      rewrite decode_encode_code_point by (nprop; lia).
      decide_tests. cbn [app]. f_equal. apply IHdr; assumption.
Qed.

(** ** JSON: parsing what was stringified *)

Lemma hex_value_digit (n : N) :
  n < 16 -> Json.hex_value (Json.hex_digit n) = Some n.
Proof.
  intros Hn. unfold Json.hex_value, Json.hex_digit.
  destruct (N.ltb_spec n 10); decide_tests; f_equal; lia.
Qed.

Lemma hex4_escape (c : N) :
  c < 65536 ->
  Json.hex4 (Json.hex_digit (c / 4096)) (Json.hex_digit ((c / 256) mod 16))
    (Json.hex_digit ((c / 16) mod 16)) (Json.hex_digit (c mod 16))
  = Some c.
Proof.
  intros Hc. unfold Json.hex4. rewrite !hex_value_digit by lia.
  f_equal. lia.
Qed.

Lemma string_body_cons (c : N) (r : jsstring) :
  Json.string_body (c :: r)
  = ltac:(let t := eval cbn [Json.string_body] in
                     (Json.string_body (c :: r)) in
          exact t).
Proof. reflexivity. Qed.

Lemma string_body_escape (c : N) (t u rest : jsstring) :
  c < 65536 ->
  Json.string_body t = Some (u, rest) ->
  Json.string_body (Json.unicode_escape c ++ t) = Some (c :: u, rest).
Proof.
  intros Hc Ht. unfold Json.unicode_escape. cbn [app].
  rewrite string_body_cons. decide_tests.
  rewrite hex4_escape by exact Hc. rewrite Ht. reflexivity.
Qed.

Lemma string_body_literal (c : N) (t u rest : jsstring) :
  32 <= c -> c <> 34 -> c <> 92 ->
  Json.string_body t = Some (u, rest) ->
  Json.string_body (c :: t) = Some (c :: u, rest).
Proof.
  intros H32 H34 H92 Ht. rewrite string_body_cons. decide_tests.
  rewrite Ht. reflexivity.
Qed.

Lemma string_body_simple (e c : N) (t u rest : jsstring) :
  e <> 117 ->
  Json.simple_escape e = Some c ->
  Json.string_body t = Some (u, rest) ->
  Json.string_body (92 :: e :: t) = Some (c :: u, rest).
Proof.
  intros He Hc Ht. rewrite string_body_cons. decide_tests.
  rewrite Hc, Ht. reflexivity.
Qed.

Lemma string_body_quote_unit (c : N) (t u rest : jsstring) :
  c < 65536 ->
  Json.string_body t = Some (u, rest) ->
  Json.string_body (Json.quote_unit c ++ t) = Some (c :: u, rest).
Proof.
  intros Hc Ht. unfold Json.quote_unit.
  repeat match goal with
         | |- context [if ?a =? ?b then _ else _] =>
           destruct (N.eqb_spec a b);
             [subst; by apply string_body_simple|]
         end.
  destruct (N.ltb_spec c 32).
  - by apply string_body_escape.
  - by apply string_body_literal.
Qed.

Lemma string_body_quote_body (s t u rest : jsstring) :
  JsString.wf s ->
  Json.string_body t = Some (u, rest) ->
  Json.string_body (Json.quote_body s ++ t) = Some (s ++ u, rest).
Proof.
  unfold JsString.wf. intros Hwf Ht. revert Hwf.
  induction s as [|c|c d r IHr IHdr] using pairwise_ind; intros Hwf.
  - exact Ht.
  - apply Forall_cons in Hwf as [Hc _]. cbn [Json.quote_body app].
    repeat case_match; rewrite ?app_nil_r;
      first [ by apply string_body_escape
            | by apply string_body_quote_unit ].
  - pose proof Hwf as Hwf'.
    apply Forall_cons in Hwf' as [Hc Hwf'].
    pose proof Hwf' as Hwf''. apply Forall_cons in Hwf'' as [Hd Hwf''].
    specialize (IHr Hwf''). specialize (IHdr Hwf').
    change (Json.quote_body (c :: d :: r))
      with (if Utf8.is_high_surrogate c then
              if Utf8.is_low_surrogate d
              then c :: d :: Json.quote_body r
              else Json.unicode_escape c ++ Json.quote_body (d :: r)
            else if Utf8.is_low_surrogate c
                 then Json.unicode_escape c ++ Json.quote_body (d :: r)
                 else Json.quote_unit c ++ Json.quote_body (d :: r)).
    destruct (Utf8.is_high_surrogate c) eqn:Hh;
      [destruct (Utf8.is_low_surrogate d) eqn:Hl
      |destruct (Utf8.is_low_surrogate c) eqn:Hl];
      rewrite <- ?app_assoc.
    + cbn [app]. nprop.
      apply string_body_literal; [lia..|].
      apply string_body_literal; [lia..|]. exact IHr.
    + by apply string_body_escape.
    + by apply string_body_escape.
    + by apply string_body_quote_unit.
Qed.

Lemma string_body_quote (s rest : jsstring) :
  JsString.wf s ->
  Json.string_body (Json.quote_body s ++ 34 :: rest) = Some (s, rest).
Proof.
  intros Hwf.
  rewrite (string_body_quote_body s (34 :: rest) [] rest Hwf);
    [by rewrite app_nil_r | reflexivity].
Qed.

Lemma utf16_app (a b : jsstring) : utf16 a -> utf16 b -> utf16 (a ++ b).
Proof.
  unfold utf16, JsString.wf. intros [Hwa Hpa] [Hwb Hpb].
  split; [by apply Forall_app|]. clear Hwa Hwb. revert Hpa.
  induction a as [|c|c d r IHr IHdr] using pairwise_ind; intros Hpa.
  - exact Hpb.
  - cbn [paired] in Hpa. cbn [app paired].
    destruct (Utf8.is_high_surrogate c); [discriminate|].
    apply andb_true_iff in Hpa as [-> _]. exact Hpb.
  - cbn [paired] in Hpa.
    change (paired ((c :: d :: r) ++ b))
      with (if Utf8.is_high_surrogate c
            then Utf8.is_low_surrogate d && paired (r ++ b)
            else negb (Utf8.is_low_surrogate c) && paired ((d :: r) ++ b)).
    destruct (Utf8.is_high_surrogate c);
      apply andb_true_iff in Hpa as [-> Hp]; cbn [andb]; auto.
Qed.

(** Text without surrogates. *)
Lemma utf16_plain (s : jsstring) : Forall (fun c => c < 55296) s -> utf16 s.
Proof.
  unfold utf16, JsString.wf. induction 1 as [|c r Hc _ [IHw IHp]].
  - split; [constructor | reflexivity].
  - split; [constructor; [lia | exact IHw]|].
    cbn [paired]. decide_tests. decide_test (Utf8.is_low_surrogate c).
    exact IHp.
Qed.

Lemma hex_digit_plain (n : N) : n < 16 -> Json.hex_digit n < 55296.
Proof. unfold Json.hex_digit. intros Hn. case_match; lia. Qed.

Lemma utf16_unicode_escape (c : N) :
  c < 65536 -> utf16 (Json.unicode_escape c).
Proof.
  intros Hc. apply utf16_plain. unfold Json.unicode_escape.
  repeat constructor; apply hex_digit_plain; lia.
Qed.

Lemma utf16_quote_unit (c : N) :
  c < 65536 ->
  Utf8.is_high_surrogate c = false ->
  Utf8.is_low_surrogate c = false ->
  utf16 (Json.quote_unit c).
Proof.
  intros Hc Hh Hl. unfold Json.quote_unit.
  repeat case_match;
    try (apply utf16_plain; repeat constructor; fail).
  - by apply utf16_unicode_escape.
  - split; [repeat constructor; exact Hc|].
    cbn [paired]. rewrite Hh, Hl. reflexivity.
Qed.

Lemma utf16_quote_body (s : jsstring) :
  JsString.wf s -> utf16 (Json.quote_body s).
Proof.
  unfold JsString.wf.
  induction s as [|c|c d r IHr IHdr] using pairwise_ind; intros Hwf.
  - by apply utf16_plain.
  - apply Forall_cons in Hwf as [Hc _]. cbn [Json.quote_body].
    repeat case_match; rewrite ?app_nil_r;
      first [ by apply utf16_unicode_escape | by apply utf16_quote_unit ].
  - pose proof Hwf as Hwf'.
    apply Forall_cons in Hwf' as [Hc Hwf'].
    pose proof Hwf' as Hwf''. apply Forall_cons in Hwf'' as [Hd Hwf''].
    specialize (IHr Hwf''). specialize (IHdr Hwf').
    change (Json.quote_body (c :: d :: r))
      with (if Utf8.is_high_surrogate c then
              if Utf8.is_low_surrogate d
              then c :: d :: Json.quote_body r
              else Json.unicode_escape c ++ Json.quote_body (d :: r)
            else if Utf8.is_low_surrogate c
                 then Json.unicode_escape c ++ Json.quote_body (d :: r)
                 else Json.quote_unit c ++ Json.quote_body (d :: r)).
    destruct (Utf8.is_high_surrogate c) eqn:Hh;
      [destruct (Utf8.is_low_surrogate d) eqn:Hl
      |destruct (Utf8.is_low_surrogate c) eqn:Hl].
    + destruct IHr as [IHw IHp]. split.
      * constructor; [exact Hc|]. constructor; [exact Hd | exact IHw].
      * cbn [paired]. rewrite Hh, Hl. exact IHp.
    + apply utf16_app; [by apply utf16_unicode_escape | exact IHdr].
    + apply utf16_app; [by apply utf16_unicode_escape | exact IHdr].
    + apply utf16_app; [by apply utf16_quote_unit | exact IHdr].
Qed.

Lemma utf16_quote (s : jsstring) : JsString.wf s -> utf16 (Json.quote s).
Proof.
  intros Hwf. unfold Json.quote.
  apply (utf16_app [34]); [by apply utf16_plain; repeat constructor|].
  apply utf16_app; [by apply utf16_quote_body|].
  by apply utf16_plain; repeat constructor.
Qed.

Lemma utf16_member (kv : jsstring * jsstring) :
  JsString.wf kv.1 -> JsString.wf kv.2 -> utf16 (Json.member kv).
Proof.
  intros Hk Hv. unfold Json.member.
  apply utf16_app; [by apply utf16_quote|].
  apply (utf16_app [58]); [by apply utf16_plain; repeat constructor|].
  by apply utf16_quote.
Qed.

Lemma utf16_join (sep : jsstring) (l : list jsstring) :
  utf16 sep -> Forall utf16 l -> utf16 (Json.join sep l).
Proof.
  intros Hsep. induction 1 as [|x r Hx Hr IH].
  - by apply utf16_plain.
  - destruct r as [|y r]; [exact Hx|].
    change (Json.join sep (x :: y :: r))
      with (x ++ sep ++ Json.join sep (y :: r)).
    by repeat apply utf16_app.
Qed.

Lemma utf16_stringify (o : Store) : store_wf o -> utf16 (Json.stringify o).
Proof.
  intros Hwf. unfold Json.stringify.
  apply (utf16_app [123]); [by apply utf16_plain; repeat constructor|].
  apply utf16_app; [|by apply utf16_plain; repeat constructor].
  apply utf16_join; [by apply utf16_plain; repeat constructor|].
  apply Forall_fmap, Forall_forall. intros [k v] Hin.
  apply elem_of_map_to_list in Hin. destruct (Hwf k v Hin).
  by apply utf16_member.
Qed.

(** The text [encryptStore] encrypts, read back by [toString]. *)
Lemma decode_encode_stringify (o : Store) :
  store_wf o ->
  Utf8.decode (Utf8.encode (Json.stringify o)) = Json.stringify o.
Proof.
  intros Hwf. destruct (utf16_stringify o Hwf). by apply decode_encode.
Qed.

Lemma skip_ws_id (c : N) (r : jsstring) :
  Json.is_ws c = false -> Json.skip_ws (c :: r) = c :: r.
Proof. intros H. cbn [Json.skip_ws]. by rewrite H. Qed.

(** A quoted string is parsed as that string, given any fuel at all. *)
Lemma value_quoted (fuel : nat) (s rest : jsstring) :
  (0 < fuel)%nat ->
  JsString.wf s ->
  Json.value fuel (Json.quote s ++ rest) = Some (Json.JString s, rest).
Proof.
  intros Hfuel Hwf. destruct fuel as [|fuel]; [lia|].
  unfold Json.quote. rewrite <- app_comm_cons, <- app_assoc.
  cbn [app Json.value]. rewrite skip_ws_id by reflexivity.
  cbn [N.eqb Pos.eqb]. by rewrite string_body_quote.
Qed.

(** The entries of an object as [JSON.parse] sees them. *)
Lemma members_stringified (l : list (jsstring * jsstring))
    (kv : jsstring * jsstring) (fuel : nat) (rest : jsstring) :
  Forall (fun kv => JsString.wf kv.1 /\ JsString.wf kv.2) (kv :: l) ->
  (length l + 2 <= fuel)%nat ->
  Json.members fuel
    (Json.join [44] (Json.member <$> kv :: l) ++ 125 :: rest)
  = Some ((fun kv => (kv.1, Json.JString kv.2)) <$> kv :: l, rest).
Proof.
  revert kv fuel. induction l as [|kv' l IH]; intros [k v] fuel Hwf Hfuel;
    apply Forall_cons in Hwf as [[Hk Hv] Hwf];
    (destruct fuel as [|fuel]; [cbn in Hfuel; lia|]);
    cbn [fst snd] in Hk, Hv.
  - cbn [fmap list_fmap Json.join]. unfold Json.member, Json.quote at 1.
    cbn [fst snd]. rewrite <- !app_assoc. cbn [app]. rewrite <- !app_assoc.
    cbn [app Json.members]. rewrite skip_ws_id by reflexivity.
    cbn [N.eqb Pos.eqb]. rewrite string_body_quote by exact Hk.
    rewrite skip_ws_id by reflexivity. cbn [N.eqb Pos.eqb].
    rewrite value_quoted by (try exact Hv; cbn in Hfuel; lia).
    rewrite skip_ws_id by reflexivity. reflexivity.
  - change (Json.join [44] (Json.member <$> (k, v) :: kv' :: l))
      with (Json.member (k, v)
            ++ [44] ++ Json.join [44] (Json.member <$> kv' :: l)).
    unfold Json.member at 1, Json.quote at 1.
    cbn [fst snd]. rewrite <- !app_assoc. cbn [app]. rewrite <- !app_assoc.
    cbn [app Json.members]. rewrite skip_ws_id by reflexivity.
    cbn [N.eqb Pos.eqb]. rewrite string_body_quote by exact Hk.
    rewrite skip_ws_id by reflexivity. cbn [N.eqb Pos.eqb].
    rewrite value_quoted by (try exact Hv; cbn in Hfuel; lia).
    rewrite skip_ws_id by reflexivity. cbn [N.eqb Pos.eqb].
    rewrite IH by (try exact Hwf; cbn in Hfuel |- *; lia).
    reflexivity.
Qed.

Lemma join_length (l : list (jsstring * jsstring)) :
  (length l <= length (Json.join [44%N] (Json.member <$> l)))%nat.
Proof.
  induction l as [|kv [|kv' l] IH].
  - reflexivity.
  - cbn [fmap list_fmap Json.join]. unfold Json.member, Json.quote.
    cbn [app length]. lia.
  - change (Json.join [44] (Json.member <$> kv :: kv' :: l))
      with (Json.member kv
            ++ [44] ++ Json.join [44] (Json.member <$> kv' :: l)).
    rewrite !length_app. cbn [length] in IH |- *. lia.
Qed.

Lemma parse_stringify (o : Store) :
  store_wf o ->
  Json.parse (Json.stringify o)
  = Some (Json.JObject
            ((fun kv => (kv.1, Json.JString kv.2)) <$> map_to_list o)).
Proof.
  intros Hwf. unfold Json.parse, Json.stringify.
  assert (Forall (fun kv => JsString.wf kv.1 /\ JsString.wf kv.2)
            (map_to_list o)) as Hall.
  { apply Forall_forall. intros [k v] Hin.
    apply elem_of_map_to_list in Hin. exact (Hwf k v Hin). }
  pose proof (join_length (map_to_list o)) as Hlen.
  destruct (map_to_list o) as [|kv l]; [reflexivity|].
  set (text := Json.join [44] (Json.member <$> kv :: l)) in *.
  assert (exists fuel,
            (2 * length (123%N :: text ++ [125%N]) + 2 = S fuel)%nat
            /\ (length l + 2 <= fuel)%nat) as (fuel & -> & Hfuel).
  { exists (2 * length (text ++ [125%N]) + 3)%nat.
    cbn [length] in *. rewrite !length_app. cbn [length]. lia. }
  cbn [Json.value].
  rewrite skip_ws_id by reflexivity. cbn [N.eqb Pos.eqb].
  assert (exists r, text ++ [125] = 34 :: r) as [r Hr].
  { subst text. destruct l; cbn [fmap list_fmap Json.join];
      unfold Json.member, Json.quote; cbn [app]; eauto. }
  rewrite Hr at 1. rewrite skip_ws_id by reflexivity. cbn [N.eqb Pos.eqb].
  subst text. rewrite members_stringified;
    [reflexivity | exact Hall | exact Hfuel].
Qed.

Lemma string_members_of_strings (l : list (jsstring * jsstring)) :
  Json.string_members ((fun kv => (kv.1, Json.JString kv.2)) <$> l) = Some l.
Proof.
  induction l as [|[k v] l IH]; [reflexivity|].
  cbn [fmap list_fmap Json.string_members fst snd].
  change (list_fmap _ _ ?f l) with (f <$> l). by rewrite IH.
Qed.

(** Creating the properties one after the other, when no key comes
    twice, gives the map with those entries. *)
Lemma define_all_onto (l : list (jsstring * jsstring)) (o : Store) :
  NoDup l.*1 ->
  fold_left (fun o kv => <[kv.1 := kv.2]> o) l o = list_to_map l ∪ o.
Proof.
  revert o. induction l as [|[k v] l IH]; intros o Hnd.
  - cbn. by rewrite (left_id_L ∅ (∪)).
  - rewrite fmap_cons in Hnd. apply NoDup_cons in Hnd as [Hk Hnd].
    cbn [fst] in Hk. rewrite list_to_map_cons. cbn [fold_left fst snd].
    rewrite IH by exact Hnd.
    rewrite <- insert_union_l. symmetry. apply insert_union_r.
    by apply not_elem_of_list_to_map_1.
Qed.

Lemma define_all_map_to_list (o : Store) :
  Json.define_all (map_to_list o) = o.
Proof.
  unfold Json.define_all.
  rewrite define_all_onto by apply NoDup_fst_map_to_list.
  by rewrite list_to_map_to_list, (right_id_L ∅ (∪)).
Qed.

(** [JSON.parse(JSON.stringify(store))] is the store again. *)
Lemma parse_stringify_store (o : Store) :
  store_wf o ->
  exists parsed,
    Json.parse (Json.stringify o) = Some parsed
    /\ Json.as_store parsed = Some o.
Proof.
  intros Hwf. eexists. split; [by apply parse_stringify|].
  cbn [Json.as_store]. rewrite string_members_of_strings.
  cbn. by rewrite define_all_map_to_list.
Qed.

(** ** Saving and loading again *)

(** C1: for a store whose serialization fits the OAEP capacity of the
    key and a matching key pair, [encryptStore] writes a file from which
    [decryptStore], given the private key, returns the same store. *)
Theorem encrypt_then_decrypt (crypto : Crypto) (STORE_FILE : jsstring)
    (seed : buffer) (s : Session)
    (publicKeyPath privateKeyPath publicKey privateKey : jsstring)
    (cap : nat) :
  store_wf (store s) ->
  Fs.readFileSync_utf8 (files s) publicKeyPath = Normal publicKey ->
  Fs.readFileSync_utf8 (files s) privateKeyPath = Normal privateKey ->
  privateKeyPath <> STORE_FILE ->
  key_pair crypto cap publicKey privateKey ->
  (length (Utf8.encode (Json.stringify (store s))) <= cap)%nat ->
  exists saved parsed,
    App.encryptStore crypto STORE_FILE seed s publicKeyPath
      = (saved, ProcessExit 0)
    /\ App.decryptStore crypto STORE_FILE (files saved) privateKeyPath
       = ([], Returned parsed)
    /\ Json.as_store parsed = Some (store s).
Proof.
  intros Hwf Hpub Hpriv Hpath Hpair Hcap.
  destruct (Hpair seed _ Hcap) as (encrypted & Henc & Hdec).
  destruct (parse_stringify_store (store s) Hwf) as (parsed & Hparse & Hst).
  eexists. exists parsed. split; [|split; [|exact Hst]].
  - unfold App.encryptStore. rewrite Hpub. cbn [mbind Completion_bind].
    rewrite Henc. reflexivity.
  - cbn [files with_files print]. unfold App.decryptStore.
    unfold Fs.readFileSync_utf8, Fs.readFileSync, Fs.writeFileSync in *.
    rewrite lookup_insert_eq. cbn [mbind Completion_bind].
    rewrite lookup_insert_ne by congruence.
    rewrite Hpriv. cbn [mbind Completion_bind]. rewrite Hdec.
    cbn [lift_crypto mbind Completion_bind].
    rewrite decode_encode_stringify by exact Hwf.
    unfold JSON_parse. rewrite Hparse. reflexivity.
Qed.

Lemma demo_key_pair :
  key_pair Demo.crypto Demo.capacity (js "PUBLIC A") (js "PRIVATE A").
Proof.
  intros seed data Hlen. eexists. split.
  - cbn [publicEncrypt Demo.crypto]. unfold Demo.encrypt.
    change (Demo.key_name (js "PUBLIC ") (js "PUBLIC A")) with (Some 65).
    destruct (Nat.leb_spec (length data) Demo.capacity); [reflexivity | lia].
  - cbn [privateDecrypt Demo.crypto]. unfold Demo.decrypt.
    change (Demo.key_name (js "PRIVATE ") (js "PRIVATE A")) with (Some 65).
    cbv beta iota. rewrite Byte.byte_dec_lb by reflexivity.
    by rewrite rev_involutive.
Qed.

Lemma encrypt_then_decrypt_witness :
  let s := Demo.session {[ js "a" := js "1" ]} in
  exists saved parsed,
    App.encryptStore Demo.crypto (js "store") [] s (js "a.pub")
      = (saved, ProcessExit 0)
    /\ App.decryptStore Demo.crypto (js "store") (files saved) (js "a.pem")
       = ([], Returned parsed)
    /\ Json.as_store parsed = Some (store s).
Proof.
  intros s.
  assert (store_wf (store s)) as Hwf.
  { apply map_Forall_singleton. split; repeat constructor. }
  assert (Fs.readFileSync_utf8 (files s) (js "a.pub")
          = Normal (js "PUBLIC A")) as Hpub by reflexivity.
  assert (Fs.readFileSync_utf8 (files s) (js "a.pem")
          = Normal (js "PRIVATE A")) as Hpriv by reflexivity.
  assert (js "a.pem" <> js "store") as Hpath by discriminate.
  assert (length (Utf8.encode (Json.stringify (store s)))
          <= Demo.capacity)%nat as Hcap by (vm_compute; lia).
  exact (encrypt_then_decrypt Demo.crypto (js "store") [] s
           (js "a.pub") (js "a.pem") (js "PUBLIC A") (js "PRIVATE A")
           Demo.capacity Hwf Hpub Hpriv Hpath demo_key_pair Hcap).
Defined.

(** The whole life cycle on an example: a session that adds an entry and
    saves, and a second run that loads the file with the private key. *)
Example save_and_reload :
  let first := App.run Demo.crypto (js "store") []
                 (App.main (js "store") Demo.keys)
                 [js "1"; js "a"; js "1"; js "4"; js "a.pub"] in
  let second := App.run Demo.crypto (js "store") []
                  (App.main (js "store") (files first.1)) [js "a.pem"] in
  first.2 = Exited 0
  /\ second.2 = Awaiting AskChoice
  /\ store second.1 = {[ js "a" := js "1" ]}.
Proof. vm_compute. repeat split; reflexivity. Qed.

(** ** [JSON.parse]: the fuel is never exhausted

    Every step of the parser hands a shorter text to the next one, so its
    result does not depend on the fuel once that exceeds twice the length
    of the text. *)

Lemma skip_ws_length (s : jsstring) :
  (length (Json.skip_ws s) <= length s)%nat.
Proof.
  induction s as [|c r IH]; [reflexivity|].
  cbn [Json.skip_ws]. destruct (Json.is_ws c); cbn [length]; lia.
Qed.

Lemma string_body_shorter (s t r : jsstring) :
  Json.string_body s = Some (t, r) -> (length r < length s)%nat.
Proof.
  remember (length s) as n eqn:Hn. revert s t r Hn.
  induction n as [n IH] using lt_wf_ind. intros s t r -> H.
  destruct s as [|c s]; [discriminate|].
  rewrite string_body_cons in H.
  repeat case_match; simplify_eq; cbn [length] in *; try lia;
    match goal with
    | H : Json.string_body ?x = Some (_, ?y) |- _ =>
      eapply (IH (length x)) in H; [|cbn [length]; lia | reflexivity]
    end; lia.
Qed.

Lemma skip_digits_length (s : jsstring) :
  (length (Json.skip_digits s) <= length s)%nat.
Proof.
  induction s as [|c r IH]; [reflexivity|].
  cbn [Json.skip_digits]. destruct (Json.is_digit c); cbn [length]; lia.
Qed.

Lemma digits1_shorter (s r : jsstring) :
  Json.digits1 s = Some r -> (length r < length s)%nat.
Proof.
  destruct s as [|c s]; [discriminate|]. cbn [Json.digits1].
  destruct (Json.is_digit c); [|discriminate]. intros [= <-].
  pose proof (skip_digits_length s). cbn [length]. lia.
Qed.

Lemma number_shorter (s r : jsstring) :
  Json.number s = Some r -> (length r < length s)%nat.
Proof.
  unfold Json.number. intros H.
  destruct (Json.int_part _) as [r1|] eqn:H1; [|discriminate].
  cbn [mbind option_bind] in H.
  destruct (Json.frac_part r1) as [r2|] eqn:H2; [|discriminate].
  cbn [mbind option_bind] in H.
  assert (length (Json.skip_sign s) <= length s)%nat as H0.
  { unfold Json.skip_sign. repeat case_match; cbn [length]; lia. }
  assert (length r1 < length (Json.skip_sign s))%nat.
  { clear H0. unfold Json.int_part in H1.
    repeat case_match; simplify_eq; cbn [length];
      try pose proof (skip_digits_length l); lia. }
  assert (length r2 <= length r1)%nat.
  { unfold Json.frac_part in H2.
    repeat case_match; simplify_eq; cbn [length]; try lia.
    apply digits1_shorter in H2. lia. }
  assert (length r <= length r2)%nat.
  { unfold Json.exp_part in H.
    repeat case_match; simplify_eq; cbn [length]; try lia;
      apply digits1_shorter in H; cbn [length] in H; lia. }
  lia.
Qed.

Lemma startsWith_length (s p : jsstring) :
  JsString.startsWith s p = true -> (length p <= length s)%nat.
Proof.
  revert s. induction p as [|a p IH]; intros s H; cbn [length]; [lia|].
  destruct s as [|b s]; [discriminate|]. cbn [JsString.startsWith] in H.
  apply andb_true_iff in H as [_ H]. apply IH in H. cbn [length]. lia.
Qed.

Lemma literal_shorter (word : jsstring) (v x : Json.json) (s r : jsstring) :
  word <> [] ->
  Json.literal word v s = Some (x, r) -> (length r < length s)%nat.
Proof.
  unfold Json.literal. intros Hw H.
  destruct (JsString.startsWith s word) eqn:Hs; [|discriminate].
  injection H as _ <-. apply startsWith_length in Hs. rewrite length_drop.
  destruct word; [congruence|]. cbn [length] in *. lia.
Qed.

(** Collects what is known about the lengths of the texts in the
    hypotheses. *)
Ltac lengths :=
  repeat match goal with
         | H : Json.skip_ws ?s = _ |- _ =>
           let L := fresh "L" in
           pose proof (skip_ws_length s) as L; rewrite H in L; clear H
         | H : Json.string_body _ = Some _ |- _ =>
           apply string_body_shorter in H
         | H : Json.number _ = Some _ |- _ => apply number_shorter in H
         | H : Json.literal _ _ _ = Some _ |- _ =>
           apply literal_shorter in H; [|discriminate]
         end;
  cbn [length] in *.

Lemma parsed_rest_shorter (fuel : nat) :
  (forall s v r,
     Json.value fuel s = Some (v, r) -> (length r < length s)%nat)
  /\ (forall s l r,
        Json.members fuel s = Some (l, r) -> (length r < length s)%nat)
  /\ (forall s l r,
        Json.elements fuel s = Some (l, r) -> (length r < length s)%nat).
Proof.
  induction fuel as [|fuel (IHv & IHm & IHe)];
    [repeat split; intros; discriminate|].
  repeat split; intros s x r H.
  - cbn [Json.value] in H.
    repeat case_match; simplify_eq;
      repeat match goal with
             | H : Json.members fuel _ = Some _ |- _ => apply IHm in H
             | H : Json.elements fuel _ = Some _ |- _ => apply IHe in H
             end;
      lengths; lia.
  - cbn [Json.members] in H.
    repeat case_match; simplify_eq;
      repeat match goal with
             | H : Json.value fuel _ = Some _ |- _ => apply IHv in H
             | H : Json.members fuel _ = Some _ |- _ => apply IHm in H
             end;
      lengths; lia.
  - cbn [Json.elements] in H.
    repeat case_match; simplify_eq;
      repeat match goal with
             | H : Json.value fuel _ = Some _ |- _ => apply IHv in H
             | H : Json.elements fuel _ = Some _ |- _ => apply IHe in H
             end;
      lengths; lia.
Qed.

Ltac parsed_lengths :=
  repeat match goal with
         | H : Json.value _ _ = Some _ |- _ =>
           apply (proj1 (parsed_rest_shorter _)) in H
         | H : Json.members _ _ = Some _ |- _ =>
           apply (proj1 (proj2 (parsed_rest_shorter _))) in H
         | H : Json.elements _ _ = Some _ |- _ =>
           apply (proj2 (proj2 (parsed_rest_shorter _))) in H
         end;
  lengths.

Lemma fuel_irrelevant (f : nat) :
  (forall g s,
     (2 * length s < f)%nat -> (2 * length s < g)%nat ->
     Json.value f s = Json.value g s)
  /\ (forall g s,
        (2 * length s < f)%nat -> (2 * length s < g)%nat ->
        Json.members f s = Json.members g s)
  /\ (forall g s,
        (2 * length s + 1 < f)%nat -> (2 * length s + 1 < g)%nat ->
        Json.elements f s = Json.elements g s).
Proof.
  induction f as [|f (IHv & IHm & IHe)]; [repeat split; intros; lia|].
  repeat split; intros [|g] s Hf Hg; try lia.
  - cbn [Json.value].
    repeat first
      [ reflexivity
      | match goal with
        | |- context [Json.members f ?x] =>
          rewrite (IHm g x) by (parsed_lengths; lia)
        | |- context [Json.elements f ?x] =>
          rewrite (IHe g x) by (parsed_lengths; lia)
        end
      | case_match ].
  - cbn [Json.members].
    repeat first
      [ reflexivity
      | match goal with
        | |- context [Json.value f ?x] =>
          rewrite (IHv g x) by (parsed_lengths; lia)
        | |- context [Json.members f ?x] =>
          rewrite (IHm g x) by (parsed_lengths; lia)
        end
      | case_match ].
  - cbn [Json.elements].
    repeat first
      [ reflexivity
      | match goal with
        | |- context [Json.value f ?x] =>
          rewrite (IHv g x) by (parsed_lengths; lia)
        | |- context [Json.elements f ?x] =>
          rewrite (IHe g x) by (parsed_lengths; lia)
        end
      | case_match ].
Qed.

(** [JSON.parse] with any larger amount of fuel gives the same result:
    a [None] of [Json.parse] is a syntax error, not a lack of fuel. *)
Lemma parse_fuel (text : jsstring) (fuel : nat) :
  (2 * length text + 2 <= fuel)%nat ->
  Json.value fuel text = Json.value (2 * length text + 2) text.
Proof.
  intros Hfuel. apply (proj1 (fuel_irrelevant fuel)); lia.
Qed.

(** ** The model on examples *)

(** A byte order mark is kept, an overlong form and a truncated sequence
    are replaced, a code point above U+FFFF becomes a surrogate pair. *)
Example decode_examples :
  Utf8.decode [xef; xbb; xbf; x7b] = [65279; 123]
  /\ Utf8.decode [xc0; x80] = [65533; 65533]
  /\ Utf8.decode [xe2; x82; x41] = [65533; 65]
  /\ Utf8.decode [xf0; x9f; x98; x80] = [55357; 56832]
  /\ Utf8.encode [55357; 56832; 56832; 8364]
     = [xf0; x9f; x98; x80; xef; xbf; xbd; xe2; x82; xac].
Proof. repeat split; reflexivity. Qed.

Example parse_accepts :
  Json.parse (js " {} ") = Some (Json.JObject [])
  /\ Json.parse (js "[1, -0.5e+3, true, null, [ ]]")
     = Some (Json.JArray [Json.JNumber; Json.JNumber; Json.JBool true;
                          Json.JNull; Json.JArray []])
  /\ Json.parse [123; 34; 97; 34; 58; 34; 92; 117; 48; 48; 101; 57; 92; 110;
                 34; 125]
     = Some (Json.JObject [(js "a", Json.JString [233; 10])]).
Proof. repeat split; reflexivity. Qed.

Example parse_rejects :
  Json.parse ([]) = None
  /\ Json.parse (js "{a:1}") = None
  /\ Json.parse (js "[1,]") = None
  /\ Json.parse (js "01") = None
  /\ Json.parse (js "1.") = None
  /\ Json.parse (js "{} x") = None
  /\ Json.parse (js "nul") = None
  /\ Json.parse [65279; 123; 125] = None.
Proof. repeat split; reflexivity. Qed.

(** Later members win over earlier ones with the same key; a value that
    is not a string takes the store outside the data model. *)
Example as_store_examples :
  (Json.parse [123; 34; 97; 34; 58; 34; 49; 34; 44; 34; 97; 34; 58; 34; 50;
               34; 125] ≫= Json.as_store)
  = Some {[ js "a" := js "2" ]}
  /\ (Json.parse (js "{}") ≫= Json.as_store) = Some ∅
  /\ (Json.parse (js "[]") ≫= Json.as_store) = None.
Proof. repeat split; reflexivity. Qed.

Example stringify_examples :
  Json.stringify ∅ = js "{}"
  /\ Json.stringify {[ [97; 34] := [10; 55357; 233] ]}
     = [123; 34; 97; 92; 34; 34; 58; 34; 92; 110; 92; 117; 100; 56; 51; 100;
        233; 34; 125]
  /\ Json.stringify_indented ∅ = js "{}".
Proof. repeat split; reflexivity. Qed.

(** ["__proto__"] passes [isValidKey]; assigning a string to it stores
    nothing, and the inherited value makes the program warn. *)
Example set_proto :
  let r := App.run Demo.crypto (js "store") [] (App.main (js "store") ∅)
             [js "1"; js "__proto__"; js "x"] in
  store r.1 = ∅
  /\ console r.1
     = [Log Menu; Log (OverwriteWarning (js "__proto__"));
        Log (AddedUpdated (js "__proto__") (js "x")); Log Menu].
Proof. vm_compute. repeat split; reflexivity. Qed.

(** Deleting a key that was never stored but is inherited reports a
    deletion. *)
Example delete_inherited :
  let r := App.run Demo.crypto (js "store") [] (App.main (js "store") ∅)
             [js "2"; js "toString"] in
  store r.1 = ∅
  /\ console r.1 = [Log Menu; Log (DeletedKey (js "toString")); Log Menu].
Proof. vm_compute. repeat split; reflexivity. Qed.

(** The menu: an invalid key is asked for again, an empty key goes back to
    the menu, the choice is trimmed, 5 ends the process. *)
Example menu_walk :
  let r := App.run Demo.crypto (js "store") [] (App.launch [js "store"] ∅)
             [js " 1 "; js "bad!key"; []; js "9"; js "5"; js "1"] in
  r.2 = Exited 0
  /\ console r.1
     = [Log Menu; Log InvalidKey; Log Menu; Log InvalidOption; Log Menu;
        Log ExitingWithoutEncryption].
Proof. vm_compute. repeat split; reflexivity. Qed.

(** A plaintext store file is parsed without asking for a key; one that
    does not parse ends the process with code 2. *)
Example plaintext_load :
  let good :=
    App.main (js "store")
      {[ js "store" :=
           Utf8.encode [123; 34; 107; 34; 58; 32; 34; 118; 34; 125] ]} in
  let bad :=
    App.main (js "store") {[ js "store" := Demo.file "{ k : v }" ]} in
  store good.1 = {[ js "k" := js "v" ]}
  /\ good.2 = Awaiting AskChoice
  /\ bad.2 = Exited 2
  /\ console bad.1 = [Log StoreNotEncrypted; Warn InvalidStoreFile].
Proof. vm_compute. repeat split; reflexivity. Qed.

(** * Further properties of the program *)

(** ** The command line (lines 6-30) *)

Lemma mentions_help (args : list jsstring) :
  existsb (fun a => JsString.eqb a (js "--help")) args = true
  <-> js "--help" ∈ args.
Proof.
  rewrite existsb_exists. unfold JsString.eqb. split.
  - intros (a & Hin & Ha). apply bool_decide_eq_true in Ha. subst a.
    by apply list_elem_of_In.
  - intros Hin. exists (js "--help"). split; [by apply list_elem_of_In|].
    by apply bool_decide_eq_true.
Qed.

(** X1: without arguments, with an empty first argument, or with
    [--help] anywhere among the arguments, the program prints the help
    text and exits with 0 whatever is on disk; in every other case it is
    [main] on the first argument. *)
Theorem launch_help_or_main (args : list jsstring) (disk : Fs.t) :
  (args = [] \/ head args = Some [] \/ js "--help" ∈ args ->
   App.launch args disk
   = ({| store := ∅; files := disk; console := [Log HelpText] |}, Exited 0))
  /\ (forall (file : jsstring) (rest : list jsstring),
        args = file :: rest -> file <> [] -> js "--help" ∉ args ->
        App.launch args disk = App.main file disk).
Proof.
  split.
  - intros H. unfold App.launch. destruct args as [|file rest]; [done|].
    destruct H as [H | [H | H]]; [done | |].
    + injection H as ->. reflexivity.
    + apply mentions_help in H. rewrite H, orb_true_r. reflexivity.
  - intros file rest -> Hfile Hhelp. unfold App.launch.
    destruct file as [|c file]; [done|]. cbn [JsString.is_empty orb].
    destruct (existsb _ _) eqn:He; [|reflexivity].
    apply mentions_help in He. contradiction.
Qed.

(** ** Loading (lines 107-126) *)

(** X2: [main] asks for a private key exactly when the store file exists
    and does not begin with an open brace; a file that does begin with
    one is never decrypted. *)
Theorem main_asks_for_private_key (STORE_FILE : jsstring) (disk : Fs.t) :
  (App.main STORE_FILE disk).2 = Awaiting AskPrivateKey
  <-> exists data, disk !! STORE_FILE = Some data /\ head data <> Some x7b.
Proof.
  split.
  - unfold App.main, Fs.existsSync, App.isEncrypted, Fs.readFileSync_utf8,
      Fs.readFileSync.
    destruct (disk !! STORE_FILE) as [data|] eqn:Hfile.
    + rewrite bool_decide_eq_true_2 by eauto.
      cbn [mbind Completion_bind mret Completion_ret].
      destruct (JsString.startsWith _ _) eqn:Hs; cbn [negb].
      * destruct (JSON_parse _); [|discriminate].
        unfold App.adopt. destruct (Json.as_store _); discriminate.
      * intros _. exists data. split; [done|].
        rewrite <- classified_by_first_byte. congruence.
    + rewrite bool_decide_eq_false_2 by (intros [? ?]; discriminate).
      discriminate.
  - intros (data & Hfile & Hhead).
    by rewrite (main_on_encrypted_file _ _ _ Hfile Hhead).
Qed.

Lemma encode_stringify_head (o : Store) :
  head (Utf8.encode (Json.stringify o)) = Some x7b.
Proof. reflexivity. Qed.

(** X3: a plaintext store file that holds the JSON text of a store is
    loaded as that store, without any key, and the program is at the
    menu. *)
Theorem plaintext_file_loads (STORE_FILE : jsstring) (disk : Fs.t)
    (o : Store) :
  store_wf o ->
  disk !! STORE_FILE = Some (Utf8.encode (Json.stringify o)) ->
  App.main STORE_FILE disk
  = ({| store := o; files := disk;
        console := [Log StoreNotEncrypted; Log Menu] |},
     Awaiting AskChoice).
Proof.
  intros Hwf Hfile.
  destruct (parse_stringify_store o Hwf) as (parsed & Hparse & Hst).
  unfold App.main, Fs.existsSync, App.isEncrypted, Fs.readFileSync_utf8,
    Fs.readFileSync.
  rewrite Hfile, bool_decide_eq_true_2 by eauto.
  cbn [mbind Completion_bind mret Completion_ret].
  rewrite (proj2 (classified_by_first_byte _) (encode_stringify_head o)).
  cbn [negb]. rewrite decode_encode_stringify by exact Hwf.
  unfold JSON_parse. rewrite Hparse. unfold App.adopt. rewrite Hst.
  reflexivity.
Qed.

Lemma plaintext_file_loads_witness :
  let o : Store := {[ js "a" := js "1" ]} in
  let disk : Fs.t := {[ js "store" := Utf8.encode (Json.stringify o) ]} in
  App.main (js "store") disk
  = ({| store := o; files := disk;
        console := [Log StoreNotEncrypted; Log Menu] |},
     Awaiting AskChoice).
Proof.
  intros o disk.
  assert (store_wf o) as Hwf.
  { apply map_Forall_singleton. split; repeat constructor. }
  assert (disk !! js "store" = Some (Utf8.encode (Json.stringify o)))
    as Hfile by reflexivity.
  exact (plaintext_file_loads (js "store") disk o Hwf Hfile).
Defined.

(** X4: a store file that begins with an open brace and is not JSON, be
    it damaged plaintext or a ciphertext that happens to begin with that
    byte, ends the process with exit code 2; no key is asked for and the
    store stays empty. *)
Theorem malformed_plaintext_exits_2 (STORE_FILE : jsstring) (disk : Fs.t)
    (data : buffer) :
  disk !! STORE_FILE = Some data ->
  head data = Some x7b ->
  Json.parse (Utf8.decode data) = None ->
  App.main STORE_FILE disk
  = ({| store := ∅; files := disk;
        console := [Log StoreNotEncrypted; Warn InvalidStoreFile] |},
     Exited 2).
Proof.
  intros Hfile Hhead Hparse.
  unfold App.main, Fs.existsSync, App.isEncrypted, Fs.readFileSync_utf8,
    Fs.readFileSync.
  rewrite Hfile, bool_decide_eq_true_2 by eauto.
  cbn [mbind Completion_bind mret Completion_ret].
  rewrite (proj2 (classified_by_first_byte _) Hhead). cbn [negb].
  unfold JSON_parse. rewrite Hparse. reflexivity.
Qed.

Lemma malformed_plaintext_exits_2_witness :
  (App.main (js "store") {[ js "store" := Demo.file "{ k : v }" ]}).2
  = Exited 2.
Proof.
  assert (({[ js "store" := Demo.file "{ k : v }" ]} : Fs.t) !! js "store"
          = Some (Demo.file "{ k : v }")) as Hfile by reflexivity.
  assert (head (Demo.file "{ k : v }") = Some x7b) as Hhead by reflexivity.
  assert (Json.parse (Utf8.decode (Demo.file "{ k : v }")) = None)
    as Hparse by reflexivity.
  rewrite (malformed_plaintext_exits_2 _ _ _ Hfile Hhead Hparse).
  reflexivity.
Defined.

(** ** Loading with a private key (lines 57-76 and 108-116) *)

(** X5: when the private key file cannot be read, loading an encrypted
    store ends the process with exit code 3 and "Decryption failed.",
    followed by the message of the file system; nothing is decrypted. *)
Theorem unreadable_private_key_exits_3 (crypto : Crypto)
    (STORE_FILE : jsstring) (seed : buffer) (disk : Fs.t)
    (encryptedData : buffer) (privateKeyPath : jsstring) :
  disk !! STORE_FILE = Some encryptedData ->
  head encryptedData <> Some x7b ->
  disk !! privateKeyPath = None ->
  App.run crypto STORE_FILE seed (App.main STORE_FILE disk) [privateKeyPath]
  = ({| store := ∅; files := disk;
        console :=
          [Warn DecryptionFailed;
           Warn (ErrorDetails (message (Fs.enoent privateKeyPath)))] |},
     Exited 3).
Proof.
  intros Hfile Hhead Hkey.
  rewrite (main_on_encrypted_file _ _ _ Hfile Hhead).
  cbn [App.run fold_left App.step snd fst App.answer files].
  unfold App.decryptStore, Fs.readFileSync_utf8, Fs.readFileSync.
  rewrite Hfile, Hkey. reflexivity.
Qed.

Lemma unreadable_private_key_exits_3_witness :
  let disk := <[ js "store" := x41 :: rev (Demo.file "{}") ]> Demo.keys in
  (App.run Demo.crypto (js "store") [] (App.main (js "store") disk)
     [js "lost.pem"]).2 = Exited 3.
Proof.
  intros disk.
  assert (disk !! js "store" = Some (x41 :: rev (Demo.file "{}")))
    as Hfile by reflexivity.
  assert (head (x41 :: rev (Demo.file "{}")) <> Some x7b)
    as Hhead by discriminate.
  assert (disk !! js "lost.pem" = None) as Hkey by reflexivity.
  rewrite (unreadable_private_key_exits_3 Demo.crypto (js "store") [] disk
             _ (js "lost.pem") Hfile Hhead Hkey).
  reflexivity.
Defined.

(** ** A save followed by the next start (lines 80-100, 107-116) *)

Lemma save_from_menu (crypto : Crypto) (STORE_FILE : jsstring)
    (seed : buffer) (s : Session) (publicKeyPath publicKey : jsstring)
    (encrypted : buffer) :
  Fs.readFileSync_utf8 (files s) publicKeyPath = Normal publicKey ->
  publicEncrypt crypto publicKey seed
    (Utf8.encode (Json.stringify (store s))) = inr encrypted ->
  App.run crypto STORE_FILE seed (s, Awaiting AskChoice)
    [js "4"; publicKeyPath]
  = (print [Log StoreSaved]
       (with_files (<[STORE_FILE := encrypted]> (files s)) s),
     Exited 0).
Proof.
  intros Hpub Henc.
  change (App.run crypto STORE_FILE seed (s, Awaiting AskChoice)
            [js "4"; publicKeyPath])
    with (App.answer crypto STORE_FILE seed s AskPublicKey publicKeyPath).
  rewrite answer_public_key. unfold App.encryptStore.
  rewrite Hpub. cbn [mbind Completion_bind]. rewrite Henc. reflexivity.
Qed.

Lemma main_on_brace_file (STORE_FILE : jsstring) (disk : Fs.t)
    (data : buffer) :
  disk !! STORE_FILE = Some data ->
  head data = Some x7b ->
  App.main STORE_FILE disk
  = let s := {| store := ∅; files := disk;
                console := [Log StoreNotEncrypted] |} in
    match JSON_parse (Utf8.decode data) with
    | Normal parsed => App.adopt s parsed []
    | Throw _ => (print [Warn InvalidStoreFile] s, Exited 2)
    end.
Proof.
  intros Hfile Hhead.
  unfold App.main, Fs.existsSync, App.isEncrypted, Fs.readFileSync_utf8,
    Fs.readFileSync.
  rewrite Hfile, bool_decide_eq_true_2 by eauto.
  cbn [mbind Completion_bind mret Completion_ret].
  rewrite (proj2 (classified_by_first_byte _) Hhead). reflexivity.
Qed.



(** X7: the format is guessed from the first byte, so a save whose
    ciphertext begins with an open brace cannot be loaded again: the next
    start takes the file for plaintext, asks for no key, and decrypts
    nothing. *)
Theorem ciphertext_with_brace_is_not_decrypted (crypto : Crypto)
    (STORE_FILE : jsstring) (seed : buffer) (s : Session)
    (publicKeyPath publicKey : jsstring) (encrypted : buffer) :
  Fs.readFileSync_utf8 (files s) publicKeyPath = Normal publicKey ->
  publicEncrypt crypto publicKey seed
    (Utf8.encode (Json.stringify (store s))) = inr encrypted ->
  head encrypted = Some x7b ->
  let saved :=
    App.run crypto STORE_FILE seed (s, Awaiting AskChoice)
      [js "4"; publicKeyPath] in
  let restarted := App.main STORE_FILE (files saved.1) in
  saved.2 = Exited 0
  /\ restarted.2 <> Awaiting AskPrivateKey
  /\ (Json.parse (Utf8.decode encrypted) = None -> restarted.2 = Exited 2).
Proof.
  intros Hpub Henc Hhead saved restarted.
  pose proof (save_from_menu crypto STORE_FILE seed s publicKeyPath
                publicKey encrypted Hpub Henc) as Hsaved.
  fold saved in Hsaved.
  subst restarted. rewrite Hsaved. cbn [fst snd files print with_files].
  assert (<[STORE_FILE := encrypted]> (files s) !! STORE_FILE
          = Some encrypted) as Hfile by apply lookup_insert_eq.
  rewrite (main_on_brace_file _ _ _ Hfile Hhead). repeat split.
  - cbv zeta. destruct (JSON_parse _); [|discriminate].
    unfold App.adopt. destruct (Json.as_store _); discriminate.
  - intros Hparse. unfold JSON_parse. rewrite Hparse. reflexivity.
Qed.

Lemma ciphertext_with_brace_is_not_decrypted_witness :
  let s := {| store := ∅;
              files := {[ js "c.pub" := Demo.file "PUBLIC {" ]};
              console := [] |} in
  let saved :=
    App.run Demo.crypto (js "store") [] (s, Awaiting AskChoice)
      [js "4"; js "c.pub"] in
  saved.2 = Exited 0
  /\ (App.main (js "store") (files saved.1)).2 <> Awaiting AskPrivateKey.
Proof.
  intros s saved.
  assert (Fs.readFileSync_utf8 (files s) (js "c.pub")
          = Normal (js "PUBLIC {")) as Hpub by reflexivity.
  assert (publicEncrypt Demo.crypto (js "PUBLIC {") []
            (Utf8.encode (Json.stringify (store s)))
          = inr (x7b :: rev (Utf8.encode (Json.stringify (store s)))))
    as Henc by reflexivity.
  assert (head (x7b :: rev (Utf8.encode (Json.stringify (store s))))
          = Some x7b) as Hhead by reflexivity.
  destruct (ciphertext_with_brace_is_not_decrypted Demo.crypto (js "store")
              [] s (js "c.pub") (js "PUBLIC {") _ Hpub Henc Hhead)
    as (Hexit & Hask & _).
  split; [exact Hexit | exact Hask].
Defined.

(** ** Entries (lines 142-168) *)

(** X8: adding an entry under a key other than ["__proto__"] leaves the
    value readable under that key and every other entry as it was. *)
Theorem add_entry_lookup (s : Session) (key value : jsstring) :
  key <> js "__proto__" ->
  store (App.add_entry s key value) !! key = Some value
  /\ (forall other, other <> key ->
        store (App.add_entry s key value) !! other = store s !! other)
  /\ files (App.add_entry s key value) = files s.
Proof.
  intros Hkey. rewrite add_entry_store. unfold JsObject.set.
  rewrite bool_decide_eq_false_2 by exact Hkey.
  destruct (store s !! key); repeat split;
    first [ apply lookup_insert_eq
          | intros other Hne; by apply lookup_insert_ne ].
Qed.

Lemma add_entry_lookup_witness :
  store (App.add_entry (Demo.session {[ js "a" := js "1" ]})
           (js "b") (js "2")) !! js "b" = Some (js "2").
Proof.
  assert (js "b" <> js "__proto__") as Hkey by discriminate.
  exact (proj1 (add_entry_lookup (Demo.session {[ js "a" := js "1" ]})
                  (js "b") (js "2") Hkey)).
Defined.

(** X9: deleting a key whose value is a non-empty string removes that
    entry and no other and prints "Deleted key"; deleting a key that is
    neither stored nor inherited from [Object.prototype] prints "Key not
    found." and changes nothing else. *)
Theorem delete_entry_lookup (s : Session) (key : jsstring) :
  (forall value, store s !! key = Some value -> value <> [] ->
     App.delete_entry s key
     = print [Log (DeletedKey key)] (with_store (delete key (store s)) s)
     /\ store (App.delete_entry s key) !! key = None
     /\ forall other, other <> key ->
          store (App.delete_entry s key) !! other = store s !! other)
  /\ (store s !! key = None -> JsObject.inherited key = false ->
      App.delete_entry s key = print [Log KeyNotFound] s).
Proof.
  unfold App.delete_entry, JsObject.get. split.
  - intros value Hv Hne. rewrite Hv.
    destruct value as [|c value]; [done|]. cbn [JsObject.truthy
      JsString.is_empty negb print with_store store JsObject.remove].
    repeat split; [apply lookup_delete_eq|].
    intros other Hother. by apply lookup_delete_ne.
  - intros -> ->. reflexivity.
Qed.

(** ** What no input can make the program do (lines 129-186) *)

Lemma run_cons (crypto : Crypto) (STORE_FILE : jsstring) (seed : buffer)
    (st : Session * Status) (line : jsstring) (lines : list jsstring) :
  App.run crypto STORE_FILE seed st (line :: lines)
  = App.run crypto STORE_FILE seed (App.step crypto STORE_FILE seed st line)
      lines.
Proof. reflexivity. Qed.

Lemma run_ended (crypto : Crypto) (STORE_FILE : jsstring) (seed : buffer)
    (st : Session * Status) (lines : list jsstring) :
  (forall q, st.2 <> Awaiting q) ->
  App.run crypto STORE_FILE seed st lines = st.
Proof.
  intros Hend. induction lines as [|line lines IH]; [reflexivity|].
  rewrite run_cons. unfold App.step at 1.
  destruct st.2 eqn:Hst; [by destruct (Hend q) | exact IH..].
Qed.

Lemma adopt_files (s : Session) (parsed : Json.json) (out : list Output) :
  files (App.adopt s parsed out).1 = files s.
Proof. unfold App.adopt. by destruct (Json.as_store parsed). Qed.

Lemma answer_files (crypto : Crypto) (STORE_FILE : jsstring) (seed : buffer)
    (s : Session) (q : Pending) (line : jsstring) :
  let r := App.answer crypto STORE_FILE seed s q line in
  files r.1 = files s
  \/ (r.2 = Exited 0
      /\ exists encrypted,
           files r.1 = <[STORE_FILE := encrypted]> (files s)).
Proof.
  destruct q; cbn [App.answer].
  - left. destruct (App.decryptStore _ _ _ _) as [out [parsed | code]];
      [by rewrite adopt_files | reflexivity].
  - left. repeat case_match; reflexivity.
  - left. repeat case_match; reflexivity.
  - left. reflexivity.
  - left. unfold App.delete_entry. repeat case_match; reflexivity.
  - unfold App.encryptStore.
    destruct (_ ≫= _) as [encrypted | error].
    + right. split; [reflexivity|]. by exists encrypted.
    + left. by destruct (JsString.includes _ _).
Qed.

(** X10: whatever the user types, the program writes to no file but the
    store file, and to that one only as its last act before exit code 0:
    after any run the files are as they were, or the process has ended
    with 0 and only the content of the store file differs. *)
Theorem only_a_save_writes (crypto : Crypto) (STORE_FILE : jsstring)
    (seed : buffer) (st : Session * Status) (lines : list jsstring) :
  let r := App.run crypto STORE_FILE seed st lines in
  files r.1 = files st.1
  \/ (r.2 = Exited 0
      /\ exists encrypted,
           files r.1 = <[STORE_FILE := encrypted]> (files st.1)).
Proof.
  revert st. induction lines as [|line lines IH]; intros st; [by left|].
  cbv zeta. rewrite run_cons.
  destruct st as [s status].
  destruct status as [q| | |]; try apply IH.
  change (App.step crypto STORE_FILE seed (s, Awaiting q) line)
    with (App.answer crypto STORE_FILE seed s q line).
  cbn [fst].
  destruct (answer_files crypto STORE_FILE seed s q line)
    as [Hsame | (Hexit & encrypted & Hwritten)].
  - specialize (IH (App.answer crypto STORE_FILE seed s q line)).
    cbv zeta in IH. rewrite Hsame in IH. exact IH.
  - rewrite run_ended by (rewrite Hexit; discriminate).
    right. split; [exact Hexit | by exists encrypted].
Qed.

Lemma answer_past_loading (crypto : Crypto) (STORE_FILE : jsstring)
    (seed : buffer) (s : Session) (q : Pending) (line : jsstring) :
  q <> AskPrivateKey ->
  past_loading (App.answer crypto STORE_FILE seed s q line).2.
Proof.
  intros Hq. destruct q; [done|..]; cbn [App.answer].
  - repeat case_match; done.
  - repeat case_match; done.
  - done.
  - repeat case_match; done.
  - unfold App.encryptStore.
    destruct (_ ≫= _) as [encrypted | error]; [done|].
    by destruct (JsString.includes _ _).
Qed.



Lemma keys_valid_set (o : Store) (key value : jsstring) :
  keys_valid o ->
  KeyValidator.isValidKey key = true ->
  keys_valid (JsObject.set o key value).
Proof.
  intros Ho Hkey k. unfold JsObject.set.
  destruct (o !! key) eqn:Hown.
  - destruct (decide (k = key)) as [->|Hne].
    + intros _. apply Ho. by rewrite Hown.
    + rewrite lookup_insert_ne by done. apply Ho.
  - case_bool_decide as Hproto; [apply Ho|].
    destruct (decide (k = key)) as [->|Hne]; [done|].
    rewrite lookup_insert_ne by done. apply Ho.
Qed.

Lemma keys_valid_delete (o : Store) (key : jsstring) :
  keys_valid o -> keys_valid (delete key o).
Proof.
  intros Ho k [v Hk]. apply lookup_delete_Some in Hk as [_ Hk].
  apply Ho. by rewrite Hk.
Qed.

Lemma answer_validated (crypto : Crypto) (STORE_FILE : jsstring)
    (seed : buffer) (s : Session) (q : Pending) (line : jsstring) :
  q <> AskPrivateKey ->
  validated (s, Awaiting q) ->
  validated (App.answer crypto STORE_FILE seed s q line).
Proof.
  intros Hq [Hkeys Hwait]. cbn [fst snd] in *.
  destruct q; [done|..]; cbn [App.answer].
  - repeat case_match; split; done.
  - repeat case_match; split; try done.
    cbn [snd]. intros key [= <-]. by apply negb_false_iff.
  - split; [|done]. cbn [fst App.menu print store].
    rewrite add_entry_store. apply keys_valid_set; [done|]. by apply Hwait.
  - unfold App.delete_entry, JsObject.remove.
    repeat case_match; (split; [|done]); try done.
    by apply keys_valid_delete.
  - unfold App.encryptStore.
    destruct (_ ≫= _) as [encrypted | error]; [split; done|].
    by destruct (JsString.includes _ _).
Qed.

Lemma run_validated (crypto : Crypto) (STORE_FILE : jsstring)
    (seed : buffer) (st : Session * Status) (lines : list jsstring) :
  past_loading st.2 ->
  validated st ->
  validated (App.run crypto STORE_FILE seed st lines).
Proof.
  revert st. induction lines as [|line lines IH]; intros st Hpast Hst;
    [done|].
  rewrite run_cons. destruct st as [s status].
  destruct status as [q| | |]; try by apply IH.
  change (App.step crypto STORE_FILE seed (s, Awaiting q) line)
    with (App.answer crypto STORE_FILE seed s q line).
  assert (q <> AskPrivateKey) as Hq by (by intros ->).
  apply IH; [by apply answer_past_loading | by apply answer_validated].
Qed.

(** X12: in a session started without a store file, whatever the user
    types, every key in the store is one [isValidKey] accepts, and
    ["__proto__"] is never among them. *)
Theorem fresh_session_keys_valid (crypto : Crypto) (STORE_FILE : jsstring)
    (seed : buffer) (disk : Fs.t) (lines : list jsstring) :
  disk !! STORE_FILE = None ->
  keys_valid
    (store (App.run crypto STORE_FILE seed (App.main STORE_FILE disk)
              lines).1).
Proof.
  intros Hfile.
  assert (App.main STORE_FILE disk
          = ({| store := ∅; files := disk; console := [Log Menu] |},
             Awaiting AskChoice)) as ->.
  { unfold App.main, Fs.existsSync.
    rewrite bool_decide_eq_false_2; [reflexivity|].
    rewrite Hfile. by intros [? ?]. }
  apply run_validated; [done|]. split; [|done].
  intros k [v Hk]. cbn in Hk. by rewrite lookup_empty in Hk.
Qed.

Lemma fresh_session_keys_valid_witness :
  keys_valid
    (store (App.run Demo.crypto (js "store") []
              (App.main (js "store") Demo.keys)
              [js "1"; js "__proto__"; js "x"; js "1"; js "a"; js "1"]).1).
Proof.
  apply (fresh_session_keys_valid Demo.crypto (js "store") [] Demo.keys).
  reflexivity.
Defined.

(** ** Keys in the saved file (lines 84 and 103) *)

Lemma allowed_plain (key : jsstring) :
  Forall KeyValidator.allowed key ->
  Json.quote_body key = key
  /\ length (Utf8.encode key) = length key.
Proof.
  unfold KeyValidator.allowed, KeyValidator.is_letter, KeyValidator.is_digit.
  induction 1 as [|c r Hc _ [IHq IHe]]; [done|]. split.
  - cbn [Json.quote_body]. decide_tests. rewrite IHq.
    unfold Json.quote_unit. decide_tests. reflexivity.
  - cbn [Utf8.encode]. decide_tests. unfold Utf8.encode_code_point.
    decide_tests. cbn [app length]. by rewrite IHe.
Qed.

(** X13: a key [isValidKey] accepts is written to the JSON text as it is,
    between two quotation marks and without any escape, and takes one
    byte per character in the buffer that is encrypted. *)
Theorem valid_key_is_verbatim (key : jsstring) :
  KeyValidator.isValidKey key = true ->
  Json.quote key = 34 :: key ++ [34]
  /\ length (Utf8.encode key) = length key.
Proof.
  unfold KeyValidator.isValidKey. rewrite !andb_true_iff.
  intros [[Hre _] _]. apply regex_test_spec in Hre as [_ Hall].
  destruct (allowed_plain key Hall) as [Hq He].
  unfold Json.quote. by rewrite Hq.
Qed.

Lemma valid_key_is_verbatim_witness :
  Json.quote (js "my_key-1") = 34 :: js "my_key-1" ++ [34].
Proof.
  assert (KeyValidator.isValidKey (js "my_key-1") = true) as H
    by reflexivity.
  exact (proj1 (valid_key_is_verbatim (js "my_key-1") H)).
Defined.

(** ** The menu choice (lines 139-140) *)

Lemma trimStart_all (p x : jsstring) :
  Forall (fun c => JsString.is_trimmable c = true) p ->
  JsString.trimStart (p ++ x) = JsString.trimStart x.
Proof.
  induction 1 as [|c p Hc _ IH]; [done|].
  cbn [app JsString.trimStart]. by rewrite Hc.
Qed.

Lemma trimStart_app (a b : jsstring) :
  JsString.trimStart (a ++ b)
  = if JsString.is_empty (JsString.trimStart a)
    then JsString.trimStart b
    else JsString.trimStart a ++ b.
Proof.
  induction a as [|c a IH]; [done|].
  cbn [app JsString.trimStart]. by destruct (JsString.is_trimmable c).
Qed.

Lemma trim_padded (pre line post : jsstring) :
  Forall (fun c => JsString.is_trimmable c = true) pre ->
  Forall (fun c => JsString.is_trimmable c = true) post ->
  JsString.trim (pre ++ line ++ post) = JsString.trim line.
Proof.
  intros Hpre Hpost. unfold JsString.trim.
  rewrite trimStart_all by exact Hpre. rewrite trimStart_app.
  destruct (JsString.trimStart line) as [|c t] eqn:Ht;
    cbn [JsString.is_empty].
  - rewrite <- (app_nil_r post), trimStart_all by exact Hpost. reflexivity.
  - rewrite rev_app_distr, trimStart_all; [reflexivity|].
    apply Forall_forall. intros x Hx.
    apply list_elem_of_In, in_rev, list_elem_of_In in Hx.
    by apply (proj1 (Forall_forall _ _) Hpost).
Qed.

(** X14: white space typed before or after the menu choice does not
    matter: the program does with the padded answer what it does with
    the answer itself. *)
Theorem choice_ignores_padding (crypto : Crypto) (STORE_FILE : jsstring)
    (seed : buffer) (s : Session) (pre line post : jsstring) :
  Forall (fun c => JsString.is_trimmable c = true) pre ->
  Forall (fun c => JsString.is_trimmable c = true) post ->
  App.answer crypto STORE_FILE seed s AskChoice (pre ++ line ++ post)
  = App.answer crypto STORE_FILE seed s AskChoice line.
Proof.
  intros Hpre Hpost. cbn [App.answer].
  by rewrite (trim_padded pre line post Hpre Hpost).
Qed.

Lemma choice_ignores_padding_witness :
  App.answer Demo.crypto (js "store") [] (Demo.session ∅) AskChoice
    (js "  " ++ js "5" ++ [9; 13])
  = App.answer Demo.crypto (js "store") [] (Demo.session ∅) AskChoice
      (js "5").
Proof.
  apply choice_ignores_padding; repeat constructor.
Defined.

(** ** Showing the store (line 171) *)

Lemma skip_ws_ws (c : N) (r : jsstring) :
  Json.is_ws c = true -> Json.skip_ws (c :: r) = Json.skip_ws r.
Proof. intros H. cbn [Json.skip_ws]. by rewrite H. Qed.

Lemma members_indented (l : list (jsstring * jsstring))
    (kv : jsstring * jsstring) (fuel : nat) (rest : jsstring) :
  Forall (fun kv => JsString.wf kv.1 /\ JsString.wf kv.2) (kv :: l) ->
  (length l + 2 <= fuel)%nat ->
  Json.members fuel
    (10 :: Json.join [44; 10] (Json.member_indented <$> kv :: l)
        ++ 10 :: 125 :: rest)
  = Some ((fun kv => (kv.1, Json.JString kv.2)) <$> kv :: l, rest).
Proof.
  revert kv fuel. induction l as [|kv' l IH]; intros [k v] fuel Hwf Hfuel;
    apply Forall_cons in Hwf as [[Hk Hv] Hwf];
    (destruct fuel as [|fuel]; [cbn in Hfuel; lia|]);
    cbn [fst snd] in Hk, Hv.
  - cbn [fmap list_fmap Json.join]. unfold Json.member_indented.
    unfold Json.quote at 1. cbn [fst snd JsString.lit].
    rewrite <- !app_assoc. cbn [app]. rewrite <- !app_assoc.
    cbn [app Json.members]. rewrite !skip_ws_ws by reflexivity.
    rewrite skip_ws_id by reflexivity.
    cbn [N.eqb Pos.eqb]. rewrite string_body_quote by exact Hk.
    rewrite skip_ws_id by reflexivity. cbn [N.eqb Pos.eqb].
    cbn [Json.value].
    destruct fuel as [|fuel]; [cbn in Hfuel; lia|].
    cbn [Json.value]. rewrite skip_ws_ws by reflexivity.
    unfold Json.quote. rewrite <- app_comm_cons, <- app_assoc.
    cbn [app]. rewrite skip_ws_id by reflexivity.
    cbn [N.eqb Pos.eqb]. rewrite string_body_quote by exact Hv.
    rewrite skip_ws_ws by reflexivity.
    rewrite skip_ws_id by reflexivity. reflexivity.
  - change (Json.join [44; 10]
              (Json.member_indented <$> (k, v) :: kv' :: l))
      with (Json.member_indented (k, v)
            ++ [44; 10]
            ++ Json.join [44; 10] (Json.member_indented <$> kv' :: l)).
    unfold Json.member_indented at 1.
    unfold Json.quote at 1. cbn [fst snd JsString.lit].
    rewrite <- !app_assoc. cbn [app]. rewrite <- !app_assoc.
    cbn [app Json.members]. rewrite !skip_ws_ws by reflexivity.
    rewrite skip_ws_id by reflexivity.
    cbn [N.eqb Pos.eqb]. rewrite string_body_quote by exact Hk.
    rewrite skip_ws_id by reflexivity. cbn [N.eqb Pos.eqb].
    destruct fuel as [|fuel]; [cbn in Hfuel; lia|].
    cbn [Json.value]. rewrite skip_ws_ws by reflexivity.
    unfold Json.quote at 1. rewrite <- app_comm_cons, <- app_assoc.
    cbn [app]. rewrite skip_ws_id by reflexivity.
    cbn [N.eqb Pos.eqb]. rewrite string_body_quote by exact Hv.
    rewrite skip_ws_id by reflexivity. cbn [N.eqb Pos.eqb].
    rewrite IH by (try exact Hwf; cbn in Hfuel |- *; lia).
    reflexivity.
Qed.

Lemma join_indented_length (l : list (jsstring * jsstring)) :
  (length l
   <= length (Json.join [44%N; 10%N] (Json.member_indented <$> l)))%nat.
Proof.
  induction l as [|kv [|kv' l] IH].
  - reflexivity.
  - cbn [fmap list_fmap Json.join]. unfold Json.member_indented.
    cbn [JsString.lit app length]. lia.
  - change (Json.join [44; 10] (Json.member_indented <$> kv :: kv' :: l))
      with (Json.member_indented kv
            ++ [44; 10]
            ++ Json.join [44; 10] (Json.member_indented <$> kv' :: l)).
    rewrite !length_app. cbn [length] in IH |- *. lia.
Qed.

(** X15: the text menu entry 3 prints after "Current store:" is JSON
    that [JSON.parse] reads back as the store shown. *)
Theorem shown_store_parses_back (o : Store) :
  store_wf o ->
  Json.parse (Json.stringify_indented o) ≫= Json.as_store = Some o.
Proof.
  intros Hwf. unfold Json.parse, Json.stringify_indented.
  assert (Forall (fun kv => JsString.wf kv.1 /\ JsString.wf kv.2)
            (map_to_list o)) as Hall.
  { apply Forall_forall. intros [k v] Hin.
    apply elem_of_map_to_list in Hin. exact (Hwf k v Hin). }
  pose proof (join_indented_length (map_to_list o)) as Hlen.
  pose proof (define_all_map_to_list o) as Hdef.
  destruct (map_to_list o) as [|kv l].
  - cbn. by rewrite <- Hdef.
  - set (text := Json.join [44; 10] (Json.member_indented <$> kv :: l))
      in *.
    assert (exists fuel,
              (2 * length (123%N :: 10%N :: text ++ [10%N; 125%N]) + 2
               = S fuel)%nat
              /\ (length l + 2 <= fuel)%nat) as (fuel & -> & Hfuel).
    { exists (2 * length (text ++ [10%N; 125%N]) + 5)%nat.
      cbn [length] in *. rewrite !length_app. cbn [length]. lia. }
    cbn [Json.value].
    rewrite skip_ws_id by reflexivity. cbn [N.eqb Pos.eqb].
    rewrite skip_ws_ws by reflexivity.
    assert (exists r, text ++ [10; 125] = 32 :: 32 :: 34 :: r) as [r Hr].
    { subst text. destruct l; cbn [fmap list_fmap Json.join];
        unfold Json.member_indented, Json.quote;
        cbn [JsString.lit app]; eauto. }
    rewrite Hr at 1. rewrite !skip_ws_ws by reflexivity.
    rewrite skip_ws_id by reflexivity. cbn [N.eqb Pos.eqb].
    subst text.
    rewrite (members_indented l kv fuel [] Hall Hfuel).
    cbn [Json.skip_ws mbind option_bind Json.as_store].
    rewrite string_members_of_strings.
    change (Some (Json.define_all (kv :: l)) = Some o). by rewrite Hdef.
Qed.

Lemma shown_store_parses_back_witness :
  Json.parse (Json.stringify_indented {[ js "a" := js "1" ]})
    ≫= Json.as_store
  = Some {[ js "a" := js "1" ]}.
Proof.
  apply shown_store_parses_back.
  apply map_Forall_singleton. split; repeat constructor.
Defined.

(** ** A public key file that is not there (lines 83 and 92-98) *)

Lemma startsWith_across (a b w : jsstring) (q : N) :
  q ∉ w ->
  JsString.startsWith (a ++ q :: b) w = JsString.startsWith a w.
Proof.
  revert a. induction w as [|x w IH]; intros a Hq; [done|].
  apply not_elem_of_cons in Hq as [Hx Hq].
  destruct a as [|y a]; cbn [app JsString.startsWith].
  - destruct (N.eqb_spec x q); [congruence | reflexivity].
  - by rewrite IH.
Qed.

Lemma includes_across (a b w : jsstring) (q : N) :
  q ∉ w ->
  JsString.includes (a ++ q :: b) w
  = JsString.includes a w || JsString.includes b w.
Proof.
  intros Hq. induction a as [|y a IH].
  - pose proof (startsWith_across [] b w q Hq) as H. cbn [app] in H.
    cbn [app JsString.includes]. by rewrite H, orb_false_r.
  - pose proof (startsWith_across (y :: a) b w q Hq) as H. cbn [app] in H.
    cbn [app JsString.includes]. by rewrite H, IH, orb_assoc.
Qed.

Lemma enoent_mentions (path : jsstring) :
  JsString.includes (message (Fs.enoent path)) (js "invalid key")
  = JsString.includes path (js "invalid key").
Proof.
  unfold Fs.enoent, OtherError. cbn [message].
  change (js "ENOENT: no such file or directory, open '")
    with (js "ENOENT: no such file or directory, open " ++ [39]).
  change (js "'") with [39]. rewrite <- app_assoc. cbn [app].
  assert (39 ∉ js "invalid key") as Hq.
  { intros H. apply list_elem_of_In in H. cbn in H.
    repeat destruct H as [H | H]; try discriminate. exact H. }
  rewrite !includes_across by exact Hq.
  change (JsString.includes (js "ENOENT: no such file or directory, open ")
            (js "invalid key")) with false.
  change (JsString.includes [] (js "invalid key")) with false.
  by rewrite orb_false_r.
Qed.

(** X16: when the public key file does not exist, what the program
    prints depends on the path typed: "Invalid public key file." if the
    path contains the words "invalid key", and otherwise "Encryption
    failed." with the message of the file system.  Either way nothing is
    written and the program is back at the menu. *)
Theorem missing_public_key_report (crypto : Crypto) (STORE_FILE : jsstring)
    (seed : buffer) (s : Session) (publicKeyPath : jsstring) :
  files s !! publicKeyPath = None ->
  App.answer crypto STORE_FILE seed s AskPublicKey publicKeyPath
  = (print
       ((if JsString.includes publicKeyPath (js "invalid key")
         then [Warn InvalidPublicKeyFile]
         else [Warn EncryptionFailed;
               Warn (ErrorDetails (message (Fs.enoent publicKeyPath)))])
        ++ [Log Menu]) s,
     Awaiting AskChoice).
Proof.
  intros Hfile. rewrite answer_public_key.
  unfold App.encryptStore, Fs.readFileSync_utf8, Fs.readFileSync.
  rewrite Hfile. cbn [mbind Completion_bind]. rewrite enoent_mentions.
  destruct (JsString.includes publicKeyPath _);
    unfold App.menu, print; cbn [store files console];
    by rewrite <- app_assoc.
Qed.

Lemma missing_public_key_report_witness :
  console
    (App.answer Demo.crypto (js "store") [] (Demo.session ∅) AskPublicKey
       (js "my invalid key.pem")).1
  = [Warn InvalidPublicKeyFile; Log Menu].
Proof.
  assert (files (Demo.session ∅) !! js "my invalid key.pem" = None)
    as Hfile by reflexivity.
  rewrite (missing_public_key_report Demo.crypto (js "store") []
             (Demo.session ∅) (js "my invalid key.pem") Hfile).
  reflexivity.
Defined.

(** ** Exit codes (lines 29, 70, 74, 91, 115, 123, 181) *)


